(** * Ramen event transport: ring buffer cursors and the tuple codec

    A shallow embedding of [src/ringbuf/ringbuf.h] (the memory mapped ring
    buffer shared by Ramen workers) and of [rmadmin/serValue.cpp] (the
    decoder that turns the words of one record into a tree of values),
    together with the properties the design document states about them.
    [ringbuf.c], [serValue.h] and [confValue.h] are not among the sources:
    what the embedded functions need from them is modelled from the design
    document and marked as such.

    A third part embeds the functions of [rmadmin/GraphModel.cpp],
    [rmadmin/ProgramItem.cpp] and [rmadmin/ChartDataSet.cpp] that keep the
    tree of sites, programs and functions in order, look a function up by
    its names and connect it to its parents.

    Conventions.  A [uint32_t] is a [Z] in [0, 2^32) and every C operation on
    it is followed by its wrap-around, written out.  The word array of the
    ring buffer and the word span handed to the decoder are [list Z]; a
    pointer into them is the index of the word it points to. *)

From Stdlib Require Import ZArith Lia Bool List String Ascii.
From Stdlib Require Import DecimalString.
From stdpp Require Import base numbers option list strings gmap.
From Equations Require Import Equations.

#[local] Open Scope Z_scope.
#[local] Set Warnings "-register-all".

(** ** Machine integers *)

Definition u32_mod : Z := 2 ^ 32.
Definition u64_mod : Z := 2 ^ 64.

(** Result of a [uint32_t] operation. *)
Definition u32 (x : Z) : Z := x mod u32_mod.
(** Result of a [size_t] operation (64 bit targets). *)
Definition usz (x : Z) : Z := x mod u64_mod.

Definition UINT32_MAX : Z := u32_mod - 1.

Module Ringbuf.

(** ** [struct ringbuf_file]

    The fields of the header that the cursor protocol uses.  [version],
    [first_seq], [lock] and [timeout] play no part in any function embedded
    here; [tmin]/[tmax] are [double] statistics that no cursor and no data
    word depends on. *)
Record ringbuf_file : Type := mk_rbf {
  num_words : Z;
  wrap : bool;
  prod_head : Z;
  prod_tail : Z;
  cons_head : Z;
  cons_tail : Z;
  num_allocs : Z;
  data : list Z
}.

(** [enum ringbuf_error] *)
Inductive ringbuf_error : Type :=
  | RB_OK
  | RB_ERR_NO_MORE_ROOM
  | RB_ERR_FAILURE
  | RB_ERR_BAD_VERSION.

(** [struct ringbuf_tx] *)
Record ringbuf_tx : Type := mk_tx {
  record_start : Z;  (* right after the record length *)
  next : Z;          (* where the record ends *)
  seen : Z           (* the observed prod_head / cons_head *)
}.

(** Number of words currently stored in the ring buffer:
<<
  if (prod_tail >= cons_head) return prod_tail - cons_head;
  return (prod_tail + rbf->num_words) - cons_head;
>> *)
Definition ringbuf_file_num_entries (rbf : ringbuf_file) (prod_tail cons_head : Z) : Z :=
  if cons_head <=? prod_tail then u32 (prod_tail - cons_head)
  else u32 (u32 (prod_tail + num_words rbf) - cons_head).

(** Conversely, the number of words free:
<<
  if (cons_tail > prod_head) return cons_tail - prod_head - 1;
  return (cons_tail + rbf->num_words) - prod_head - 1;
>> *)
Definition ringbuf_file_num_free (rbf : ringbuf_file) (cons_tail prod_head : Z) : Z :=
  if prod_head <? cons_tail then u32 (u32 (cons_tail - prod_head) - 1)
  else u32 (u32 (u32 (cons_tail + num_words rbf) - prod_head) - 1).

(** *** Word arrays *)

(** [d[i]]; the callers below only read positions of the array. *)
Definition word_at (d : list Z) (i : Z) : Z := nth (Z.to_nat i) d 0.

(** The [n] words of [d] that start at position [i]. *)
Definition words_from (d : list Z) (i n : Z) : list Z :=
  take (Z.to_nat n) (drop (Z.to_nat i) d).

(** [memcpy(dst + dst_off, src + src_off, nbytes)] between two word arrays
    (little-endian words): [nbytes / 4] whole words, then the low
    [nbytes mod 4] bytes of the next word. *)
Definition memcpy (dst : list Z) (dst_off : Z) (src : list Z) (src_off : Z)
    (nbytes : Z) : list Z :=
  let nw := nbytes / 4 in
  let r := nbytes mod 4 in
  let whole := list_inserts (Z.to_nat dst_off) (words_from src src_off nw) dst in
  if r =? 0 then whole
  else
    let keep := 2 ^ (8 * r) in
    let s := word_at src (src_off + nw) in
    let o := word_at dst (dst_off + nw) in
    <[Z.to_nat (dst_off + nw) := s mod keep + (o / keep) * keep]> whole.

(** *** Field updates *)

Definition set_prod_head (v : Z) (r : ringbuf_file) : ringbuf_file :=
  mk_rbf (num_words r) (wrap r) v (prod_tail r) (cons_head r) (cons_tail r)
         (num_allocs r) (data r).
Definition set_prod_tail (v : Z) (r : ringbuf_file) : ringbuf_file :=
  mk_rbf (num_words r) (wrap r) (prod_head r) v (cons_head r) (cons_tail r)
         (num_allocs r) (data r).
Definition set_cons_head (v : Z) (r : ringbuf_file) : ringbuf_file :=
  mk_rbf (num_words r) (wrap r) (prod_head r) (prod_tail r) v (cons_tail r)
         (num_allocs r) (data r).
Definition set_cons_tail (v : Z) (r : ringbuf_file) : ringbuf_file :=
  mk_rbf (num_words r) (wrap r) (prod_head r) (prod_tail r) (cons_head r) v
         (num_allocs r) (data r).
Definition set_num_allocs (v : Z) (r : ringbuf_file) : ringbuf_file :=
  mk_rbf (num_words r) (wrap r) (prod_head r) (prod_tail r) (cons_head r)
         (cons_tail r) v (data r).
Definition set_data (d : list Z) (r : ringbuf_file) : ringbuf_file :=
  mk_rbf (num_words r) (wrap r) (prod_head r) (prod_tail r) (cons_head r)
         (cons_tail r) (num_allocs r) d.

(** *** The reserve/commit operations ([ringbuf.c], declared [extern] in the
    header) *)

(** Modelled from the spec: the cursor update of the missing reserve
    functions.  Position that follows a record of [n] payload words whose
    length word is at [start]: "all four cursors are taken modulo
    capacity". *)
Definition next_pos (N start n : Z) : Z :=
  if start + 1 + n =? N then 0 else start + 1 + n.

(** Modelled from the spec: [ringbuf_create] is missing from the sources.  It
    "initializes the backing file to hold the header plus capacity_words data
    words, zeroes cursors". *)
Definition ringbuf_create (wrap_ : bool) (tot_words : Z) : ringbuf_file :=
  mk_rbf tot_words wrap_ 0 0 0 0 0 (replicate (Z.to_nat tot_words) 0).

(** Modelled from the spec: [ringbuf_dequeue_alloc] is missing from the
    sources.  "If empty, returns NoData.  Otherwise reads the next record's
    length prefix, advances consumer-head past it, and returns the transaction
    describing the readable span."  The span is the one [struct ringbuf_tx]
    documents: [record_start] right after the length word, [next] where the
    record ends.  The value returned is the size [ringbuf_dequeue] hands to
    [memcpy], hence a byte count, and a negative value when there is no data.
    A length word equal to [UINT32_MAX] marks the end of the array: the record
    it announces starts at position 0 (see [ringbuf_enqueue_alloc]). *)
Definition ringbuf_dequeue_alloc (rb : ringbuf_file) : Z * ringbuf_file * ringbuf_tx :=
  let seen_ := cons_head rb in
  if ringbuf_file_num_entries rb (prod_tail rb) seen_ <? 1 then
    (-1, rb, mk_tx 0 0 seen_)
  else
    let start := if word_at (data rb) seen_ =? UINT32_MAX then 0 else seen_ in
    let n := word_at (data rb) start in
    let nxt := next_pos (num_words rb) start n in
    (n * 4, set_cons_head nxt rb, mk_tx (start + 1) nxt seen_).

(** Modelled from the spec: [ringbuf_dequeue_commit] is missing from the
    sources.  It "advances consumer-tail past the transaction's span". *)
Definition ringbuf_dequeue_commit (rb : ringbuf_file) (tx : ringbuf_tx) : ringbuf_file :=
  set_cons_tail (next tx) rb.

(** Modelled from the spec: eviction in wrap mode, part of the missing
    [ringbuf_enqueue_alloc].  Evicting the oldest unread record is reserving
    it and releasing it at once, without copying it out. *)
Definition evict_oldest (rb : ringbuf_file) : ringbuf_file :=
  let '(sz, rb1, tx) := ringbuf_dequeue_alloc rb in
  if sz <? 0 then rb else ringbuf_dequeue_commit rb1 tx.

(** Modelled from the spec: the eviction loop of the missing
    [ringbuf_enqueue_alloc].  It evicts until [alloced] words fit or nothing
    is left to evict; every eviction releases at least one word, so
    [num_words] rounds are enough. *)
Fixpoint evict_until (rounds : nat) (alloced : Z) (rb : ringbuf_file) : ringbuf_file :=
  match rounds with
  | O => rb
  | S k =>
      if alloced <? ringbuf_file_num_free rb (cons_tail rb) (prod_head rb) then rb
      else if ringbuf_file_num_entries rb (prod_tail rb) (cons_head rb) <? 1 then rb
      else evict_until k alloced (evict_oldest rb)
  end.

(** Modelled from the spec: [ringbuf_enqueue_alloc] is missing from the
    sources.  It "computes whether num_words (+ framing overhead) fits in the
    free span.  For a non-wrapping channel, if it does not fit, returns
    NoRoom.  For a wrapping channel, insufficient room means advancing the
    consumer-tail to evict the oldest unread record(s) rather than failing.
    On success, advances producer-head and returns a transaction describing
    the reserved word range"; "no allocation may be granted that would make
    [the channel] full".  The framing overhead is the length word, written
    here since [ringbuf_enqueue] copies the payload only.  [ringbuf_enqueue]
    and [ringbuf_dequeue] copy a record with one flat [memcpy], so a record
    never straddles the end of the array: when it would, the words up to the
    end are given up, marked by [UINT32_MAX] in place of a length word, and
    the record starts at position 0.  A request that still does not fit once
    nothing is left to evict is refused and leaves the channel as it was. *)
Definition ringbuf_enqueue_alloc (rb : ringbuf_file) (n : Z)
    : ringbuf_error * ringbuf_file * ringbuf_tx :=
  let N := num_words rb in
  let seen_ := prod_head rb in
  let straddles := N <? seen_ + 1 + n in
  let alloced := if straddles then (N - seen_) + 1 + n else 1 + n in
  let start := if straddles then 0 else seen_ in
  let nxt := next_pos N start n in
  let rb1 := if wrap rb then evict_until (Z.to_nat N) alloced rb else rb in
  if alloced <? ringbuf_file_num_free rb1 (cons_tail rb1) seen_ then
    let d1 := if straddles then <[Z.to_nat seen_ := UINT32_MAX]> (data rb1)
              else data rb1 in
    let d2 := <[Z.to_nat start := n]> d1 in
    (RB_OK, set_data d2 (set_prod_head nxt rb1), mk_tx (start + 1) nxt seen_)
  else
    (RB_ERR_NO_MORE_ROOM, rb, mk_tx 0 0 seen_).

(** Modelled from the spec: [ringbuf_enqueue_commit] is missing from the
    sources.  It "advances producer-tail to publish the transaction's range,
    updates running allocation count" (the time range statistics are
    [double]s and are left out with [t_start] and [t_stop]). *)
Definition ringbuf_enqueue_commit (rb : ringbuf_file) (tx : ringbuf_tx) : ringbuf_file :=
  set_num_allocs (u32 (num_allocs rb + 1)) (set_prod_tail (next tx) rb).

(** *** The combined operations of the header *)

(** [ringbuf_enqueue]:
<<
  enum ringbuf_error const err = ringbuf_enqueue_alloc(rb, &tx, num_words);
  if (err) return err;
  memcpy(rbf->data + tx.record_start, data, num_words * sizeof *data);
  ringbuf_enqueue_commit(rb, &tx, t_start, t_stop);
  return 0;
>> *)
Definition ringbuf_enqueue (rb : ringbuf_file) (data_ : list Z) (num_words_ : Z)
    : ringbuf_error * ringbuf_file :=
  let '(err, rb1, tx) := ringbuf_enqueue_alloc rb num_words_ in
  match err with
  | RB_OK =>
      let rb2 := set_data (memcpy (data rb1) (record_start tx) data_ 0
                                  (usz (num_words_ * 4))) rb1 in
      (RB_OK, ringbuf_enqueue_commit rb2 tx)
  | _ => (err, rb1)
  end.

(** [ringbuf_dequeue]; the result is the value returned, the channel and the
    caller's buffer:
<<
  ssize_t const sz = ringbuf_dequeue_alloc(rb, &tx);
  if (sz < 0) return sz;
  if ((size_t)sz > max_size) { PRINT_RB(...); return -1; }
  memcpy(data, rbf->data + tx.record_start, sz);
  ringbuf_dequeue_commit(rb, &tx);
  return sz;
>> *)
Definition ringbuf_dequeue (rb : ringbuf_file) (data_ : list Z) (max_size : Z)
    : Z * ringbuf_file * list Z :=
  let '(sz, rb1, tx) := ringbuf_dequeue_alloc rb in
  if sz <? 0 then (sz, rb1, data_)
  else if max_size <? sz then (-1, rb1, data_)
  else
    let data' := memcpy data_ 0 (data rb1) (record_start tx) sz in
    (sz, ringbuf_dequeue_commit rb1 tx, data').

(** *** A client of the channel

    A run of enqueues and dequeues, with the payloads accepted and the
    payloads handed back, both in call order.  A dequeue is given a buffer
    and passes its size in bytes. *)
Inductive op : Type :=
  | Enqueue (payload : list Z)
  | Dequeue (buffer : list Z).

Definition step (rb : ringbuf_file) (o : op)
    : ringbuf_file * list (list Z) * list (list Z) :=
  match o with
  | Enqueue p =>
      let '(err, rb') := ringbuf_enqueue rb p (Z.of_nat (length p)) in
      (rb', match err with RB_OK => [p] | _ => [] end, [])
  | Dequeue buf =>
      let '(sz, rb', buf') := ringbuf_dequeue rb buf (4 * Z.of_nat (length buf)) in
      (rb', [], if sz <? 0 then [] else [take (Z.to_nat (sz / 4)) buf'])
  end.

Fixpoint run (rb : ringbuf_file) (ops : list op)
    : ringbuf_file * list (list Z) * list (list Z) :=
  match ops with
  | [] => (rb, [], [])
  | o :: ops' =>
      let '(rb1, e1, d1) := step rb o in
      let '(rb2, e2, d2) := run rb1 ops' in
      (rb2, e1 ++ e2, d1 ++ d2)
  end.


(** A header is well formed when its capacity is a [uint32_t] and its four
    cursors are positions of the word array. *)
Definition is_u32 (x : Z) : Prop := 0 <= x < u32_mod.

Definition cursor_ok (rbf : ringbuf_file) (c : Z) : Prop := 0 <= c < num_words rbf.

Definition cursors_ok (rbf : ringbuf_file) : Prop :=
  is_u32 (num_words rbf) /\
  cursor_ok rbf (prod_head rbf) /\ cursor_ok rbf (prod_tail rbf) /\
  cursor_ok rbf (cons_head rbf) /\ cursor_ok rbf (cons_tail rbf).

(** No reservation is pending on either side. *)
Definition quiescent (rbf : ringbuf_file) : Prop :=
  prod_head rbf = prod_tail rbf /\ cons_head rbf = cons_tail rbf.

(** *** The records a channel holds

    The layout of the queue of unread records in the word array, as the
    reserve operations produce it.  A record of [n] payload words reserved
    when the producer head is at [pos] takes [rec_cost] words and has its
    length word at [rec_start]. *)
Definition straddles (N pos n : Z) : bool := N <? pos + 1 + n.

Definition rec_cost (N pos n : Z) : Z :=
  if straddles N pos n then (N - pos) + 1 + n else 1 + n.

Definition rec_start (N pos n : Z) : Z :=
  if straddles N pos n then 0 else pos.

Definition rec_next (N pos n : Z) : Z := next_pos N (rec_start N pos n) n.

Definition len (p : list Z) : Z := Z.of_nat (length p).

(** The record with payload [p] is stored at [pos]. *)
Definition rec_ok (d : list Z) (N pos : Z) (p : list Z) : Prop :=
  rec_cost N pos (len p) < N /\
  (straddles N pos (len p) = true -> word_at d pos = UINT32_MAX) /\
  word_at d (rec_start N pos (len p)) = len p /\
  words_from d (rec_start N pos (len p) + 1) (len p) = p.

(** The payloads [q] are stored one after the other from [pos] on. *)
Fixpoint chain (d : list Z) (N pos : Z) (q : list (list Z)) : Prop :=
  match q with
  | [] => True
  | p :: q' => rec_ok d N pos p /\ chain d N (rec_next N pos (len p)) q'
  end.

Fixpoint chain_end (N pos : Z) (q : list (list Z)) : Z :=
  match q with
  | [] => pos
  | p :: q' => chain_end N (rec_next N pos (len p)) q'
  end.

Fixpoint chain_cost (N pos : Z) (q : list (list Z)) : Z :=
  match q with
  | [] => 0
  | p :: q' => rec_cost N pos (len p) + chain_cost N (rec_next N pos (len p)) q'
  end.

(** Words from position [a] forward to position [b] around the ring. *)
Definition dist (N a b : Z) : Z := if a <=? b then b - a else b - a + N.

(** [holds rb q]: no reservation is pending and the unread records of [rb]
    are the payloads [q], oldest first. *)
Definition holds (rb : ringbuf_file) (q : list (list Z)) : Prop :=
  let N := num_words rb in
  0 < N < u32_mod /\
  len (data rb) = N /\
  quiescent rb /\
  0 <= cons_head rb < N /\
  0 <= prod_tail rb < N /\
  chain (data rb) N (cons_head rb) q /\
  chain_end N (cons_head rb) q = prod_tail rb /\
  chain_cost N (cons_head rb) q = dist N (cons_head rb) (prod_tail rb).

(** What a run reports. *)
Definition enqueued (r : ringbuf_file * list (list Z) * list (list Z)) : list (list Z) :=
  snd (fst r).
Definition dequeued (r : ringbuf_file * list (list Z) * list (list Z)) : list (list Z) :=
  snd r.




(** A run on a channel of 8 words: the third enqueue finds no room. *)
Definition demo_ops : list op :=
  [Enqueue [11; 12]; Enqueue [21]; Dequeue (replicate 8 0);
   Enqueue [31; 32; 33]; Dequeue (replicate 8 0);
   Enqueue [41; 42]; Dequeue (replicate 8 0)].

(** A fresh channel of 16 words. *)
Definition fresh_16 : ringbuf_file := ringbuf_create false 16.

(** The reserved-gap identity between the two cursor functions. *)
Definition gap_identity (rb : ringbuf_file) : Prop :=
  ringbuf_file_num_free rb (cons_tail rb) (prod_head rb) +
  ringbuf_file_num_entries rb (prod_tail rb) (cons_head rb) + 1 = num_words rb.

(** A fresh channel of 16 words on which 3 words have been reserved and not
    yet committed. *)
Definition reserved_16_3 : ringbuf_file :=
  snd (fst (ringbuf_enqueue_alloc (ringbuf_create false 16) 3)).

(** A fresh channel of 16 words that holds one record of 3 words. *)
Definition holding_16_3 : ringbuf_file :=
  snd (ringbuf_enqueue (ringbuf_create false 16) [1; 2; 3] 3).


(** *** The free count of the diagnostic macro *)

(** The free word count that [PRINT_RB] prints:
<<
  "prod=[%"PRIu32";%"PRIu32"], free=%u words: "
  ...
  ringbuf_file_num_free(rbf, rbf->prod_tail, rbf->cons_head),
>> *)
Definition PRINT_RB_free (rbf : ringbuf_file) : Z :=
  ringbuf_file_num_free rbf (prod_tail rbf) (cons_head rbf).

(** A channel of 16 words on which a producer has reserved 4 words beyond the
    6 already published and a consumer is reading the first 3 of them. *)
Definition in_flight_16 : ringbuf_file :=
  mk_rbf 16 false 10 6 3 0 2 (replicate 16 0).

End Ringbuf.

Module Ser.

(** ** The value model ([serValue.h], [confValue.h])

    The two headers are not among the sources; the declarations below are
    the ones [serValue.cpp] uses. *)

(** Modelled from the spec: [enum ValueType] is declared in the missing
    [confValue.h].  These are the tags that [serValue.cpp] names, which
    cover the variants of the design document; [unserialize] sends every
    other tag to its [default] branch, as it does for the first two. *)
Inductive ValueType : Type :=
  | EmptyType | AnyType
  | FloatType | StringType | BoolType
  | U8Type | U16Type | U32Type | U64Type | U128Type
  | I8Type | I16Type | I32Type | I64Type | I128Type
  | EthType | Ipv4Type | Ipv6Type
  | IpType | Cidrv4Type | Cidrv6Type | CidrType
  | TupleType | VecType | ListType | RecordType.

#[global] Instance ValueType_eq_dec : EqDecision ValueType.
Proof. solve_decision. Defined.

(** Modelled from the spec: [conf::RamenType] and its subclasses are declared
    in the missing [confValue.h].  "A tree whose nodes are tagged as scalar,
    or composite (fixed-arity tuple, fixed-dimension homogeneous vector, or
    named-field record with an explicit serialization order), each node
    independently markable nullable."  The members are the ones
    [unserialize] reads: [type], [nullable], [fields], [dim], [subType],
    [serOrder]; the constructor is the dynamic class of the object, which
    [unserialize] checks with [dynamic_pointer_cast]. *)
Inductive RamenType : Type :=
  | RamenTypeScalar (type_ : ValueType) (nullable_ : bool)
  | RamenTypeTuple (type_ : ValueType) (nullable_ : bool)
      (fields : list RamenType)
  | RamenTypeVec (type_ : ValueType) (nullable_ : bool)
      (dim : nat) (subType : RamenType)
  | RamenTypeRecord (type_ : ValueType) (nullable_ : bool)
      (fields : list (string * RamenType)) (serOrder : list nat).

Definition type (t : RamenType) : ValueType :=
  match t with
  | RamenTypeScalar ty _ | RamenTypeTuple ty _ _
  | RamenTypeVec ty _ _ _ | RamenTypeRecord ty _ _ _ => ty
  end.

Definition nullable (t : RamenType) : bool :=
  match t with
  | RamenTypeScalar _ n | RamenTypeTuple _ n _
  | RamenTypeVec _ n _ _ | RamenTypeRecord _ n _ _ => n
  end.

(** Number of nullable types in a list of children. *)
Definition count_nullable (ts : list RamenType) : nat :=
  length (filter (fun t => nullable t = true) ts).

(** Modelled from the spec: [RamenType::nullmaskWidth] is declared in the
    missing [confValue.h].  The nullmask is "sized to the number of nullable
    immediate children", "one bit per nullable immediate child". *)
Definition nullmaskWidth (t : RamenType) (topLevel : bool) : Z :=
  match t with
  | RamenTypeScalar _ _ => 0
  | RamenTypeTuple _ _ fields => Z.of_nat (count_nullable fields)
  | RamenTypeVec _ _ dim subType => if nullable subType then Z.of_nat dim else 0
  | RamenTypeRecord _ _ fields _ => Z.of_nat (count_nullable (List.map snd fields))
  end.

(** Modelled from the spec: [ser::Value] and its subclasses are declared in
    the missing [serValue.h]; there is one constructor per class that
    [serValue.cpp] instantiates, with the member its constructor fills.  A
    number holds the integer read, a [Float] the 64 bits of its [double], a
    [String] one character code per byte read; a slot of a [Record] that was
    never assigned holds the null pointer ([None]). *)
Inductive Value : Type :=
  | Null
  | Error (errMsg : string)
  | Float (v : Z)
  | Bool (v : bool)
  | String (v : list Z)
  | U8 (v : Z) | U16 (v : Z) | U32 (v : Z) | U64 (v : Z) | U128 (v : Z)
  | I8 (v : Z) | I16 (v : Z) | I32 (v : Z) | I64 (v : Z) | I128 (v : Z)
  | Eth (v : Z) | Ipv4 (v : Z) | Ipv6 (v : Z)
  | Tuple (fieldValues : list Value)
  | Vec (values : list Value)
  | Record (fieldValues : list (string * option Value)).

(** The tag each constructor passes to [Value::Value]. *)
Definition valueType (v : Value) : ValueType :=
  match v with
  | Null => AnyType
  | Error _ => EmptyType
  | Float _ => FloatType
  | Bool _ => BoolType
  | String _ => StringType
  | U8 _ => U8Type | U16 _ => U16Type | U32 _ => U32Type
  | U64 _ => U64Type | U128 _ => U128Type
  | I8 _ => I8Type | I16 _ => I16Type | I32 _ => I32Type
  | I64 _ => I64Type | I128 _ => I128Type
  | Eth _ => EthType | Ipv4 _ => Ipv4Type | Ipv6 _ => Ipv6Type
  | Tuple _ => TupleType
  | Vec _ => VecType
  | Record _ => RecordType
  end.

(** [Value::operator==]: [return other.type == type;] *)
Definition Value_eq (this other : Value) : bool :=
  bool_decide (valueType other = valueType this).

(** [Value::operator!=]: [return !operator==(other);] *)
Definition Value_ne (this other : Value) : bool :=
  negb (Value_eq this other).

(** ** Reading the word span *)

(** [roundUpWords]: [return (sz + 3) >> 2;] on [size_t]. *)
Definition roundUpWords (sz : Z) : Z := Z.shiftr (usz (sz + 3)) 2.

(** The word at index [i] of the span. *)
Definition rd (mem : list Z) (i : nat) : Z := nth i mem 0.

(** The byte at byte address [a] of the span (little-endian words). *)
Definition byte_at (mem : list Z) (a : nat) : Z :=
  Z.land (Z.shiftr (rd mem (a / 4)) (8 * Z.of_nat (a mod 4))) 255.

(** Two and four consecutive words read as one integer. *)
Definition u64_at (mem : list Z) (i : nat) : Z :=
  rd mem i + Z.shiftl (rd mem (i + 1)) 32.
Definition u128_at (mem : list Z) (i : nat) : Z :=
  u64_at mem i + Z.shiftl (u64_at mem (i + 2)) 64.

(** An unsigned [w]-bit pattern read as a signed integer. *)
Definition signed (w : Z) (x : Z) : Z :=
  if x <? 2 ^ (w - 1) then x else x - 2 ^ w.

(** [bitSet]:
<<
  if (null_i >= 8) return bitSet(nullmask + 1, null_i - 8);
  else return ( *nullmask) & (1 << null_i);
>>
    [nullmask] is a byte address. *)
Equations bitSet (mem : list Z) (nullmask : nat) (null_i : nat) : bool
  by wf null_i lt :=
  bitSet mem nullmask null_i with le_lt_dec 8 null_i := {
    | left _ => bitSet mem (nullmask + 1) (null_i - 8)
    | right _ => negb (Z.land (byte_at mem nullmask) (Z.shiftl 1 (Z.of_nat null_i)) =? 0)
  }.
Next Obligation. lia. Qed.

(** The word that [bitSet nullmask null_i] reads. *)
Definition bitSet_word (nullmask null_i : nat) : nat := ((nullmask + null_i / 8) / 4)%nat.

(** ** [unserialize]

    A decoder is given the cursor [start] and returns the value, the cursor
    after it and the indices of the words it read, in order.  It returns
    [None] where the C++ program has no result: a failed [assert], or an
    index outside [record->fields].  Counters over the children of a node are
    natural numbers: a vector has far fewer than 2^32 elements. *)
Definition decoded : Type := Value * nat * list nat.
Definition decoder : Type := nat -> option decoded.

Section Unserialize.

Variable mem : list Z.
Variable max : nat.

(** A scalar case: [if (start + need > max) return new Error(msg);] then the
    constructor, which reads [words] words and does [start += words]. *)
Definition scalar (need words : nat) (msg : string) (v : Value)
    (start : nat) (dbg : list nat) : option decoded :=
  if (max <? start + need)%nat then Some (Error msg, start, dbg)
  else Some (v, (start + words)%nat, dbg ++ seq start words).

(** The characters [String::String] appends, and the words it reads them
    from. *)
Definition string_chars (start len : nat) : list Z :=
  List.map (fun i => byte_at mem (4 * start + i)) (seq 0 len).
Definition string_reads (start len : nat) : list nat :=
  List.map (fun i => (start + i / 4)%nat) (seq 0 len).

(** The body of the three loops over the children of a composite value:
<<
  if (subType->nullable) {
    ... bitSet(nullmask, null_i) ? unserialize(subType, start, max) : new Null() ...
    null_i++;
  } else {
    ... unserialize(subType, start, max) ...
  }
>>
    It returns the value, the cursor, [null_i] and the words read. *)
Definition child (nullmask : nat) (nullable_ : bool) (dec : decoder)
    (null_i start : nat) : option (Value * nat * nat * list nat) :=
  if nullable_ then
    if bitSet mem nullmask null_i then
      '(v, start', r) ← dec start;
      Some (v, start', S null_i, bitSet_word nullmask null_i :: r)
    else
      Some (Null, start, S null_i, [bitSet_word nullmask null_i])
  else
    '(v, start', r) ← dec start;
    Some (v, start', null_i, r).

(** [for (auto &subType : tuple->fields) fieldValues.push_back(...)] *)
Fixpoint tuple_loop (nullmask : nat) (fields : list (bool * decoder))
    (null_i start : nat) : option (list Value * nat * list nat) :=
  match fields with
  | [] => Some ([], start, [])
  | (nullable_, dec) :: fields' =>
      '(v, start', null_i', r) ← child nullmask nullable_ dec null_i start;
      '(vs, start'', r') ← tuple_loop nullmask fields' null_i' start';
      Some (v :: vs, start'', r ++ r')
  end.

(** [for (unsigned i = 0; i < vec->dim; i++) values.push_back(...)] *)
Fixpoint vec_loop (nullmask : nat) (dim : nat) (nullable_ : bool) (dec : decoder)
    (null_i start : nat) : option (list Value * nat * list nat) :=
  match dim with
  | O => Some ([], start, [])
  | S dim' =>
      '(v, start', null_i', r) ← child nullmask nullable_ dec null_i start;
      '(vs, start'', r') ← vec_loop nullmask dim' nullable_ dec null_i' start';
      Some (v :: vs, start'', r ++ r')
  end.

(** The loop over [record->serOrder]:
<<
  size_t fieldIdx = record->serOrder[i];
  ... field = &record->fields[ fieldIdx ];
  std::cout << ... (subType->nullable ? (bitSet(nullmask, null_i) ? ...
  fieldValues[ fieldIdx ].first = fieldName;
  fieldValues[ fieldIdx ].second = ...
>> *)
Fixpoint record_loop (nullmask : nat) (fields : list (string * (bool * decoder)))
    (serOrder : list nat) (null_i start : nat)
    (fieldValues : list (string * option Value))
    : option (list (string * option Value) * nat * list nat) :=
  match serOrder with
  | [] => Some (fieldValues, start, [])
  | fieldIdx :: serOrder' =>
      match (fields !! fieldIdx : option (string * (bool * decoder))) with
      | None => None
      | Some (fieldName, (nullable_, dec)) =>
          let shown := if nullable_ then [bitSet_word nullmask null_i] else [] in
          '(v, start', null_i', r) ← child nullmask nullable_ dec null_i start;
          '(fvs, start'', r') ←
            record_loop nullmask fields serOrder' null_i' start'
                        (<[fieldIdx := (fieldName, Some v)]> fieldValues);
          Some (fvs, start'', shown ++ r ++ r')
      end
  end.

(** [unserialize(type, start, max, topLevel)].  The recursive calls leave
    [topLevel] to its default, [false] (a nullable child would otherwise fail
    the assertion).  The words printed by the debugging loop at the entry are
    read as well. *)
Fixpoint unserialize (t : RamenType) (start : nat) (topLevel : bool)
    {struct t} : option decoded :=
  let dbg := seq start (max - start) in
  if topLevel && nullable t then None
  else
    match type t with
    | FloatType =>
        scalar 2 2 "Cannot unserialize float" (Float (u64_at mem start)) start dbg
    | StringType =>
        if (max <? start + 1)%nat then
          Some (Error "Cannot unserialize string", start, dbg)
        else
          let len := rd mem start in
          let start1 := (start + 1)%nat in
          let wordLen := roundUpWords len in
          if (max <? start1 + Z.to_nat wordLen)%nat then
            Some (Error ("Cannot unserialize of length " ++
                         NilZero.string_of_int (Z.to_int len)),
                  start1, dbg ++ [start])
          else
            Some (String (string_chars start1 (Z.to_nat len)),
                  (start1 + Z.to_nat (roundUpWords len))%nat,
                  dbg ++ start :: string_reads start1 (Z.to_nat len))
    | BoolType =>
        scalar 1 1 "Cannot unserialize bool" (Bool (negb (rd mem start =? 0))) start dbg
    | U8Type =>
        scalar 1 1 "Cannot unserialize u8" (U8 (Z.land (rd mem start) 255)) start dbg
    | U16Type =>
        scalar 1 1 "Cannot unserialize u16" (U16 (Z.land (rd mem start) 65535)) start dbg
    | U32Type =>
        scalar 1 1 "Cannot unserialize u32" (U32 (rd mem start)) start dbg
    | I8Type =>
        scalar 1 1 "Cannot unserialize i8"
               (I8 (signed 8 (Z.land (rd mem start) 255))) start dbg
    | I16Type =>
        scalar 1 1 "Cannot unserialize i16"
               (I16 (signed 16 (Z.land (rd mem start) 65535))) start dbg
    | I32Type =>
        scalar 1 1 "Cannot unserialize i32" (I32 (signed 32 (rd mem start))) start dbg
    | Ipv4Type =>
        scalar 1 2 "Cannot unserialize ipv4" (Ipv4 (u64_at mem start)) start dbg
    | U64Type =>
        scalar 2 2 "Cannot unserialize u64" (U64 (u64_at mem start)) start dbg
    | I64Type =>
        scalar 2 2 "Cannot unserialize i64" (I64 (signed 64 (u64_at mem start))) start dbg
    | EthType =>
        scalar 2 2 "Cannot unserialize eth" (Eth (u64_at mem start)) start dbg
    | U128Type =>
        scalar 4 4 "Cannot unserialize u128" (U128 (u128_at mem start)) start dbg
    | I128Type =>
        scalar 4 4 "Cannot unserialize i128"
               (I128 (signed 128 (u128_at mem start))) start dbg
    | Ipv6Type =>
        scalar 4 4 "Cannot unserialize ipv6" (Ipv6 (u128_at mem start)) start dbg
    | IpType | Cidrv4Type | Cidrv6Type | CidrType =>
        Some (Error "TODO: unserialize", start, dbg)
    | TupleType =>
        match t with
        | RamenTypeTuple _ _ fields =>
            let nullmask := (4 * start)%nat in
            let start1 := (start + Z.to_nat (roundUpWords (nullmaskWidth t topLevel)))%nat in
            if (max <? start1)%nat then Some (Error "Invalid start/max", start1, dbg)
            else
              '(fieldValues, start', r) ←
                tuple_loop nullmask
                  (List.map (fun subType =>
                     (nullable subType, fun s => unserialize subType s false)) fields)
                  0 start1;
              Some (Tuple fieldValues, start', dbg ++ r)
        | _ => Some (Error "Cannot unserialize: Invalid tag for tuple", start, dbg)
        end
    | VecType =>
        match t with
        | RamenTypeVec _ _ dim subType =>
            let nullmask := (4 * start)%nat in
            let start1 := (start + Z.to_nat (roundUpWords (nullmaskWidth t topLevel)))%nat in
            if (max <? start1)%nat then Some (Error "Invalid start/max", start1, dbg)
            else
              '(values, start', r) ←
                vec_loop nullmask dim (nullable subType)
                         (fun s => unserialize subType s false) 0 start1;
              Some (Vec values, start', dbg ++ r)
        | _ => Some (Error "Cannot unserialize: Invalid tag for vector", start, dbg)
        end
    | ListType => Some (Error "TODO: unserialize lists", start, dbg)
    | RecordType =>
        match t with
        | RamenTypeRecord _ _ fields serOrder =>
            let nullmask := (4 * start)%nat in
            let start1 :=
              (start + Z.to_nat (roundUpWords
                                   (usz (nullmaskWidth t topLevel + 7) / 8)))%nat in
            if (max <? start1)%nat then Some (Error "Invalid start/max", start1, dbg)
            else
              '(fieldValues, start', r) ←
                record_loop nullmask
                  (List.map (fun field =>
                     (fst field, (nullable (snd field),
                                  fun s => unserialize (snd field) s false))) fields)
                  serOrder 0 start1
                  (replicate (length fields) (EmptyString, None));
              Some (Record fieldValues, start', dbg ++ r)
        | _ => Some (Error "Cannot unserialize: Invalid tag for record", start, dbg)
        end
    | EmptyType | AnyType => Some (Error "Cannot unserialize: unknown tag", start, dbg)
    end.

End Unserialize.

(** ** The children of a composite value, in the order they are decoded *)

(** The decoders the tuple case hands to its loop, one per field. *)
Definition tuple_decoders (mem : list Z) (max : nat) (fields : list RamenType)
    : list (bool * decoder) :=
  List.map (fun subType =>
              (nullable subType, fun s => unserialize mem max subType s false))
           fields.

(** The decoders the record case hands to its loop, with the field names. *)
Definition record_decoders (mem : list Z) (max : nat)
    (fields : list (string * RamenType)) : list (string * (bool * decoder)) :=
  List.map (fun field =>
              (fst field, (nullable (snd field),
                           fun s => unserialize mem max (snd field) s false)))
           fields.

(** Number of nullable children among [fields]. *)
Definition count_flags (fields : list (bool * decoder)) : nat :=
  length (List.filter fst fields).

(** The elements of [fields] in the order [serOrder] visits them; [None] when
    an index is outside [fields]. *)
Fixpoint visited {A} (fields : list A) (serOrder : list nat) : option (list A) :=
  match serOrder with
  | [] => Some []
  | i :: rest =>
      match fields !! i, visited fields rest with
      | Some f, Some fs => Some (f :: fs)
      | _, _ => None
      end
  end.

(** Storing the named values [nvs], decoded in wire order, at the indices that
    [serOrder] gives. *)
Fixpoint place (serOrder : list nat) (nvs : list (string * Value))
    (fieldValues : list (string * option Value)) : list (string * option Value) :=
  match serOrder, nvs with
  | i :: rest, (name, v) :: nvs' => place rest nvs' (<[i := (name, Some v)]> fieldValues)
  | _, _ => fieldValues
  end.

(** The values a record holds at the indices that [serOrder] gives. *)
Fixpoint stored (fieldValues : list (string * option Value)) (serOrder : list nat)
    : option (list Value) :=
  match serOrder with
  | [] => Some []
  | i :: rest =>
      match fieldValues !! i, stored fieldValues rest with
      | Some (_, Some v), Some vs => Some (v :: vs)
      | _, _ => None
      end
  end.

(** A result without the list of words read. *)
Definition drop_reads {A} (x : option (A * nat * list nat)) : option (A * nat) :=
  match x with
  | Some (a, s, _) => Some (a, s)
  | None => None
  end.

(** The children of a composite type in the order [unserialize] decodes
    them: declaration order for a tuple, [dim] times the element type for a
    vector, [serOrder] for a record. *)
Definition visit_order (t : RamenType) : option (list RamenType) :=
  match t with
  | RamenTypeScalar _ _ => None
  | RamenTypeTuple _ _ fields => Some fields
  | RamenTypeVec _ _ dim subType => Some (replicate dim subType)
  | RamenTypeRecord _ _ fields serOrder => visited (List.map snd fields) serOrder
  end.

(** The values of the children of a composite value, in the same order. *)
Definition visit_values (t : RamenType) (v : Value) : option (list Value) :=
  match t, v with
  | RamenTypeTuple _ _ _, Tuple vs => Some vs
  | RamenTypeVec _ _ _ _, Vec vs => Some vs
  | RamenTypeRecord _ _ _ serOrder, Record fvs => stored fvs serOrder
  | _, _ => None
  end.

(** Words that [unserialize] skips for the nullmask of a composite type. *)
Definition nullmask_words (t : RamenType) (topLevel : bool) : nat :=
  match t with
  | RamenTypeScalar _ _ => 0%nat
  | RamenTypeTuple _ _ _ | RamenTypeVec _ _ _ _ =>
      Z.to_nat (roundUpWords (nullmaskWidth t topLevel))
  | RamenTypeRecord _ _ _ _ =>
      Z.to_nat (roundUpWords (usz (nullmaskWidth t topLevel + 7) / 8))
  end.

(** A composite type whose tag is the one of its class; the serialization
    order of a record names no field twice. *)
Definition composite (t : RamenType) : Prop :=
  match t with
  | RamenTypeScalar _ _ => False
  | RamenTypeTuple ty _ _ => ty = TupleType
  | RamenTypeVec ty _ _ _ => ty = VecType
  | RamenTypeRecord ty _ _ serOrder => ty = RecordType /\ NoDup serOrder
  end.

(** Decoding the children [children] one after the other, from the cursor
    [from] with [null_i] nullmask bits already used, yields the values [vs]
    and ends at the cursor [to]. *)
Definition decodes_children (mem : list Z) (max nullmask : nat)
    (children : list RamenType) (null_i from : nat) (vs : list Value) (to : nat) : Prop :=
  drop_reads (tuple_loop mem nullmask (tuple_decoders mem max children) null_i from)
  = Some (vs, to).

(** The word count the design document gives for each scalar tag. *)
Definition claimed_scalar_words (mem : list Z) (start : nat) (ty : ValueType) : option nat :=
  match ty with
  | FloatType => Some 1%nat
  | BoolType | U8Type | U16Type | U32Type | I8Type | I16Type | I32Type => Some 1%nat
  | U64Type | I64Type | EthType | Ipv4Type => Some 2%nat
  | U128Type | I128Type | Ipv6Type => Some 4%nat
  | StringType => Some (1 + Z.to_nat (roundUpWords (rd mem start)))%nat
  | _ => None
  end.

(** The design document's count holds for one decoding. *)
Definition consumes_claimed_words (mem : list Z) (max : nat) (t : RamenType)
    (start : nat) (topLevel : bool) : Prop :=
  forall v s r w,
    claimed_scalar_words mem start (type t) = Some w ->
    unserialize mem max t start topLevel = Some (v, s, r) ->
    valueType v <> EmptyType ->
    s = (start + w)%nat.

(** The word count [unserialize] consumes for each scalar tag. *)
Definition scalar_words (mem : list Z) (start : nat) (ty : ValueType) : option nat :=
  match ty with
  | FloatType => Some 2%nat
  | BoolType | U8Type | U16Type | U32Type | I8Type | I16Type | I32Type => Some 1%nat
  | U64Type | I64Type | EthType | Ipv4Type => Some 2%nat
  | U128Type | I128Type | Ipv6Type => Some 4%nat
  | StringType => Some (1 + Z.to_nat (roundUpWords (rd mem start)))%nat
  | _ => None
  end.


(** ** Inputs used in the examples below *)

(** A non-nullable IPv4 address. *)
Definition ipv4_schema : RamenType := RamenTypeScalar Ipv4Type false.

(** Five nullable [u8] children. *)
Definition five_nullable : list RamenType := replicate 5 (RamenTypeScalar U8Type true).
Definition five_nullable_named : list (string * RamenType) :=
  List.map (fun t => (EmptyString, t)) five_nullable.

(** Seven words: a nullmask with its five low bits set, then 1 to 6. *)
Definition seven_words : list Z := [31; 1; 2; 3; 4; 5; 6].

(** Nullmask words for [n] nullable children when one bit is kept per child
    and the bits are rounded up to whole 32 bit words. *)
Definition claimed_nullmask_words (n : Z) : nat := Z.to_nat ((n + 31) / 32).

(** A tuple of a nullable [u32], a [u8], a nullable [u16] and a nullable
    string, and five words that encode it with nullmask bits 0 and 2 set:
    the [u32] 11, the [u8] 2, no [u16], the string of bytes 97 98. *)
Definition demo_tuple : RamenType :=
  RamenTypeTuple TupleType false
    [RamenTypeScalar U32Type true; RamenTypeScalar U8Type false;
     RamenTypeScalar U16Type true; RamenTypeScalar StringType true].
Definition demo_tuple_words : list Z := [5; 11; 258; 2; 25185].
Definition demo_tuple_value : Value := Tuple [U32 11; U8 2; Null; String [97; 98]].

(** A record of the same four fields, serialized last field first. *)
Definition demo_record_fields : list (string * RamenType) :=
  [("a"%string, RamenTypeScalar U32Type true);
   ("b"%string, RamenTypeScalar U8Type false);
   ("c"%string, RamenTypeScalar U16Type true);
   ("d"%string, RamenTypeScalar StringType true)].
Definition demo_record : RamenType :=
  RamenTypeRecord RecordType false demo_record_fields [3; 1; 0; 2]%nat.
Definition demo_record_words : list Z := [5; 2; 25185; 258; 77].
Definition demo_record_value : Value :=
  Record [("a"%string, Some Null); ("b"%string, Some (U8 2));
          ("c"%string, Some (U16 77)); ("d"%string, Some (String [97; 98]))].

(** ** Schemas and decoders as a whole *)

(** Words that the check of each fixed-width scalar case asks for:
    [if (start + 2 > max) return new Error("Cannot unserialize float");] and
    the like. *)
Definition scalar_need (ty : ValueType) : option nat :=
  match ty with
  | BoolType | U8Type | U16Type | U32Type | I8Type | I16Type | I32Type
  | Ipv4Type => Some 1%nat
  | FloatType | U64Type | I64Type | EthType => Some 2%nat
  | U128Type | I128Type | Ipv6Type => Some 4%nat
  | _ => None
  end.

(** An [Error] value. *)
Definition is_error (v : Value) : bool :=
  match v with Error _ => true | _ => false end.

(** The value with [Vec] in the place of [Tuple]. *)
Definition Vec_of_Tuple (v : Value) : Value :=
  match v with Tuple vs => Vec vs | _ => v end.

(** Induction on a schema, with the property at hand for every child. *)
Fixpoint RamenType_nested_ind (P : RamenType -> Prop)
    (Hs : forall ty n, P (RamenTypeScalar ty n))
    (Ht : forall ty n fields, Forall P fields -> P (RamenTypeTuple ty n fields))
    (Hv : forall ty n dim sub, P sub -> P (RamenTypeVec ty n dim sub))
    (Hr : forall ty n fields serOrder,
        Forall (fun f => P (snd f)) fields -> P (RamenTypeRecord ty n fields serOrder))
    (t : RamenType) {struct t} : P t :=
  match t with
  | RamenTypeScalar ty n => Hs ty n
  | RamenTypeTuple ty n fields =>
      Ht ty n fields
         ((fix go (l : list RamenType) : Forall P l :=
             match l with
             | [] => @List.Forall_nil _ P
             | x :: l' =>
                 @List.Forall_cons _ P x l' (RamenType_nested_ind P Hs Ht Hv Hr x) (go l')
             end) fields)
  | RamenTypeVec ty n dim sub => Hv ty n dim sub (RamenType_nested_ind P Hs Ht Hv Hr sub)
  | RamenTypeRecord ty n fields serOrder =>
      Hr ty n fields serOrder
         ((fix go (l : list (string * RamenType)) : Forall (fun f => P (snd f)) l :=
             match l with
             | [] => @List.Forall_nil _ (fun f => P (snd f))
             | x :: l' =>
                 @List.Forall_cons _ (fun f => P (snd f)) x l'
                   (RamenType_nested_ind P Hs Ht Hv Hr (snd x)) (go l')
             end) fields)
  end.

(** A decoder that never moves the cursor backwards. *)
Definition forward (dec : decoder) : Prop :=
  forall s v s' r, dec s = Some (v, s', r) -> (s <= s')%nat.

(** A decoder that reads below the limit [max] only. *)
Definition guarded (max : nat) (dec : decoder) : Prop :=
  forall s v s' r, dec s = Some (v, s', r) -> Forall (fun i => (i < max)%nat) r.

(** The nullable flag of the field at index [i]. *)
Definition flag_at (fields : list (string * (bool * decoder))) (i : nat) : bool :=
  match fields !! i with Some f => fst (snd f) | None => false end.

(** A schema no node of which carries the IPv4 tag, whose nodes have fewer
    than 2^32 children, and whose records name no field twice in their
    serialization order. *)
Fixpoint ipv4_free (t : RamenType) : bool :=
  negb (bool_decide (type t = Ipv4Type)) &&
  match t with
  | RamenTypeScalar _ _ => true
  | RamenTypeTuple _ _ fields =>
      (Z.of_nat (length fields) <? u32_mod) && forallb ipv4_free fields
  | RamenTypeVec _ _ dim subType => (Z.of_nat dim <? u32_mod) && ipv4_free subType
  | RamenTypeRecord _ _ fields serOrder =>
      (Z.of_nat (length fields) <? u32_mod) &&
      forallb (fun field => ipv4_free (snd field)) fields &&
      bool_decide (NoDup serOrder)
  end.

(** Every word of the span is a [uint32_t]. *)
Definition words_u32 (mem : list Z) : Prop := Forall (fun w => 0 <= w < u32_mod) mem.


End Ser.

Module Graph.

(** ** The tree of sites, programs and functions ([GraphModel.cpp],
    [ProgramItem.cpp], [ChartDataSet.cpp])

    [GraphItem.h], [SiteItem.h] and [ProgramItem.h] are not among the
    sources; an item has the members that the functions below use: its
    address (the pointer that vectors, signals and [parents] hold), the name
    of its [shared] data, its [row], the position given by [setPos] and its
    children ([programs] of a site, [functions] of a program).  The pointers
    of a vector are to items of their own: [updateKey] only ever inserts an
    item that it has just allocated.  A vector has far fewer than 2^31 / 130
    items, so that the [int] counter of a loop and its products do not
    overflow. *)
Record GraphItem (C : Type) : Type := mk_item {
  addr : nat;
  name : string;
  row : Z;
  pos : Z * Z;
  children : C
}.
Arguments mk_item {C}.
Arguments addr {C}.
Arguments name {C}.
Arguments row {C}.
Arguments pos {C}.
Arguments children {C}.

Definition FunctionItem : Type := GraphItem unit.
Definition ProgramItem : Type := GraphItem (list FunctionItem).
Definition SiteItem : Type := GraphItem (list ProgramItem).

Definition functions (p : ProgramItem) : list FunctionItem := children p.
Definition programs (s : SiteItem) : list ProgramItem := children s.

(** The signals emitted, with the row and pointer of the index passed, or the
    two function pointers. *)
Inductive signal : Type :=
  | positionChanged (row_ : Z) (ptr : nat)
  | relationAdded (parent child : nat)
  | relationRemoved (parent child : nat).

(** [item->row = i; item->setPos(x, y);] *)
Definition moved {C} (i : Z) (p : Z * Z) (item : GraphItem C) : GraphItem C :=
  mk_item (addr item) (name item) i p (children item).

(** The loop of [GraphModel::reorder] and of [ProgramItem::reorder], from the
    index [i] on:
<<
  for (int i = 0; (size_t)i < sites.size(); i ++) {
    if (sites[i]->row != i) {
      sites[i]->row = i;
      sites[i]->setPos(0, i * 130);
      emit positionChanged(createIndex(i, 0, static_cast<GraphItem *>(sites[i])));
    }
  }
>>
    [x] and [step] are 0 and 130 for the sites, 30 and 30 for the functions
    of a program.  The result is the items and the signals emitted. *)
Fixpoint reorder_from {C} (x step : Z) (i : nat) (items : list (GraphItem C))
    : list (GraphItem C) * list signal :=
  match items with
  | [] => ([], [])
  | item :: rest =>
      let '(rest', emitted) := reorder_from x step (S i) rest in
      if row item =? Z.of_nat i then (item :: rest', emitted)
      else (moved (Z.of_nat i) (x, Z.of_nat i * step) item :: rest',
            positionChanged (Z.of_nat i) (addr item) :: emitted)
  end.

(** [GraphModel::reorder] *)
Definition GraphModel_reorder (sites : list SiteItem) : list SiteItem * list signal :=
  reorder_from 0 130 0 sites.

(** [ProgramItem::reorder] *)
Definition ProgramItem_reorder (functions_ : list FunctionItem)
    : list FunctionItem * list signal :=
  reorder_from 30 30 0 functions_.

(** The signals that a reordering of [items] has to emit: one for each item
    whose row is not its index, in index order. *)
Fixpoint misplaced {C} (i : nat) (items : list (GraphItem C)) : list signal :=
  match items with
  | [] => []
  | item :: rest =>
      if row item =? Z.of_nat i then misplaced (S i) rest
      else positionChanged (Z.of_nat i) (addr item) :: misplaced (S i) rest
  end.

(** What a reordering of [items] with the offsets [x] and [step] gives: every
    row is the index; an item whose row was its index is untouched, another
    one is at the position of its index; addresses, names and children are
    as before; one signal per item moved, in index order. *)
Definition reordered {C} (x step : Z) (items : list (GraphItem C))
    (r : list (GraphItem C) * list signal) : Prop :=
  (forall i item, fst r !! i = Some item -> row item = Z.of_nat i) /\
  (forall i item0 item, items !! i = Some item0 -> fst r !! i = Some item ->
     item = if row item0 =? Z.of_nat i then item0
            else moved (Z.of_nat i) (x, Z.of_nat i * step) item0) /\
  List.map addr (fst r) = List.map addr items /\
  List.map name (fst r) = List.map name items /\
  List.map children (fst r) = List.map children items /\
  snd r = misplaced 0 items.

(** [GraphModel::find]:
<<
  for (SiteItem const *siteItem : sites) {
    if (siteItem->shared->name == site) {
      for (ProgramItem const *programItem : siteItem->programs) {
        if (programItem->shared->name == program) {
          for (FunctionItem const *functionItem : programItem->functions) {
            if (functionItem->shared->name == function) {
              return functionItem;
            }
          }
          return nullptr;
        }
      }
      return nullptr;
    }
  }
  return nullptr;
>> *)
Fixpoint find_function (functions_ : list FunctionItem) (function : string)
    : option FunctionItem :=
  match functions_ with
  | [] => None
  | functionItem :: rest =>
      if String.eqb (name functionItem) function then Some functionItem
      else find_function rest function
  end.

Fixpoint find_program (programs_ : list ProgramItem) (program function : string)
    : option FunctionItem :=
  match programs_ with
  | [] => None
  | programItem :: rest =>
      if String.eqb (name programItem) program
      then find_function (functions programItem) function
      else find_program rest program function
  end.

Fixpoint find (sites : list SiteItem) (site program function : string)
    : option FunctionItem :=
  match sites with
  | [] => None
  | siteItem :: rest =>
      if String.eqb (name siteItem) site
      then find_program (programs siteItem) program function
      else find rest site program function
  end.

(** The items of [items] before the first one named [n], that item, and the
    items after it. *)
Definition first_named {C} (items : list (GraphItem C)) (n : string)
    (before : list (GraphItem C)) (item : GraphItem C) (after : list (GraphItem C))
    : Prop :=
  items = before ++ item :: after /\ name item = n /\
  Forall (fun other => name other <> n) before.

(** The first block of [GraphModel::updateKey], which looks the site of the
    key up and creates it when it is not there; [new_addr], [new_row] and
    [new_pos] are the address, row and position of the item that [new]
    returns.  The result is the sites, the pointer [siteItem] and the
    [positionChanged] signals emitted:
<<
  SiteItem *siteItem = nullptr;
  for (SiteItem *si : sites) {
    if (si->shared->name == pk.site) {
      siteItem = si;
      break;
    }
  }
  if (! siteItem) {
    siteItem = new SiteItem(nullptr, std::make_unique<Site>(pk.site), settings);
    int idx = sites.size(); // as we insert at the end for now
    beginInsertRows(QModelIndex(), idx, idx);
    sites.insert(sites.begin()+idx, siteItem);
    reorder();
    endInsertRows();
  }
>> *)
Fixpoint named {C} (items : list (GraphItem C)) (n : string) : option (GraphItem C) :=
  match items with
  | [] => None
  | item :: rest => if String.eqb (name item) n then Some item else named rest n
  end.

Definition updateKey_site (sites_ : list SiteItem) (pk_site : string)
    (new_addr : nat) (new_row : Z) (new_pos : Z * Z)
    : list SiteItem * nat * list signal :=
  match named sites_ pk_site with
  | Some siteItem => (sites_, addr siteItem, [])
  | None =>
      let siteItem : SiteItem := mk_item new_addr pk_site new_row new_pos [] in
      let '(sites', emitted_) := GraphModel_reorder (sites_ ++ [siteItem]) in
      (sites', new_addr, emitted_)
  end.

(** Items whose rows are their indices and whose names are all different. *)
Definition in_order {C} (items : list (GraphItem C)) : Prop :=
  (forall i item, items !! i = Some item -> row item = Z.of_nat i) /\
  NoDup (List.map name items).

(** [struct PendingAddParent]: the child and the site, program and function
    names of the parent it waits for. *)
Record PendingAddParent : Type := mk_pending {
  child : nat;
  site : string;
  program : string;
  function : string
}.

(** What the functions on parents read and write: the tree, the [parents]
    vector of each function (by the address of the function), the static
    list [pendingAddParents] and the signals emitted so far. *)
Record GraphModel : Type := mk_model {
  sites : list SiteItem;
  parents : gmap nat (list nat);
  pendingAddParents : list PendingAddParent;
  emitted : list signal
}.

(** [child->parents] *)
Definition parents_of (g : GraphModel) (child_ : nat) : list nat :=
  default [] (parents g !! child_).

(** [GraphModel::addFunctionParent]:
<<
  child->parents.push_back(parent);
  emit relationAdded(parent, child);
>> *)
Definition addFunctionParent (parent child_ : nat) (g : GraphModel) : GraphModel :=
  mk_model (sites g)
           (<[child_ := parents_of g child_ ++ [parent]]> (parents g))
           (pendingAddParents g)
           (emitted g ++ [relationAdded parent child_]).

(** [GraphModel::delayAddFunctionParent]:
    [pendingAddParents.emplace_back(child, site, program, function);] *)
Definition delayAddFunctionParent (child_ : nat) (site_ program_ function_ : string)
    (g : GraphModel) : GraphModel :=
  mk_model (sites g) (parents g)
           (pendingAddParents g ++ [mk_pending child_ site_ program_ function_])
           (emitted g).

(** [GraphModel::removeParents]:
<<
  for (size_t i = 0; i < child->parents.size(); i ++) {
    emit relationRemoved(child->parents[i], child);
  }
  child->parents.clear();
  for (auto it = pendingAddParents.begin(); it != pendingAddParents.end(); ) {
    if (it->child == child) {
      it = pendingAddParents.erase(it);
    } else {
      it ++;
    }
  }
>> *)
Fixpoint erase_child (child_ : nat) (pending : list PendingAddParent)
    : list PendingAddParent :=
  match pending with
  | [] => []
  | it :: rest =>
      if Nat.eqb (child it) child_ then erase_child child_ rest
      else it :: erase_child child_ rest
  end.

Definition removeParents (child_ : nat) (g : GraphModel) : GraphModel :=
  mk_model (sites g)
           (<[child_ := []]> (parents g))
           (erase_child child_ (pendingAddParents g))
           (emitted g ++ List.map (fun parent => relationRemoved parent child_)
                                  (parents_of g child_)).

(** [GraphModel::retryAddParents]:
<<
  for (auto it = pendingAddParents.begin(); it != pendingAddParents.end(); ) {
    FunctionItem const *parent = find(it->site, it->program, it->function);
    if (parent) {
      addFunctionParent(parent, it->child);
      it = pendingAddParents.erase(it);
    } else {
      it ++;
    }
  }
>>
    [retry_loop] runs the loop over the entries from the iterator on and
    returns the model with these entries in the place of its list. *)
Fixpoint retry_loop (pending : list PendingAddParent) (g : GraphModel) : GraphModel :=
  match pending with
  | [] => mk_model (sites g) (parents g) [] (emitted g)
  | it :: rest =>
      match find (sites g) (site it) (program it) (function it) with
      | Some parent =>
          retry_loop rest (addFunctionParent (addr parent) (child it) g)
      | None =>
          let g' := retry_loop rest g in
          mk_model (sites g') (parents g') (it :: pendingAddParents g') (emitted g')
      end
  end.

Definition retryAddParents (g : GraphModel) : GraphModel :=
  retry_loop (pendingAddParents g) g.

(** An entry of the pending list whose parent [find] locates. *)
Definition resolvable (g : GraphModel) (it : PendingAddParent) : bool :=
  match find (sites g) (site it) (program it) (function it) with
  | Some _ => true
  | None => false
  end.

(** The parents that the resolvable entries of [pending] name for [child_],
    in the order of the list. *)
Fixpoint resolved_for (sites_ : list SiteItem) (child_ : nat)
    (pending : list PendingAddParent) : list nat :=
  match pending with
  | [] => []
  | it :: rest =>
      match find sites_ (site it) (program it) (function it) with
      | Some parent =>
          if Nat.eqb (child it) child_
          then addr parent :: resolved_for sites_ child_ rest
          else resolved_for sites_ child_ rest
      | None => resolved_for sites_ child_ rest
      end
  end.

(** The signals that resolving the entries of [pending] emits. *)
Fixpoint resolved_signals (sites_ : list SiteItem) (pending : list PendingAddParent)
    : list signal :=
  match pending with
  | [] => []
  | it :: rest =>
      match find sites_ (site it) (program it) (function it) with
      | Some parent =>
          relationAdded (addr parent) (child it) :: resolved_signals sites_ rest
      | None => resolved_signals sites_ rest
      end
  end.

(** ** The factor loop of [ChartDataSet::ChartDataSet] *)

(** The values of the configuration tree, as far as the loop tells them
    apart: a [conf::String], or a value of another class. *)
Inductive conf_Value : Type :=
  | conf_String (s : string)
  | conf_other.

(** [std::to_string(i)] *)
Definition to_string (i : nat) : string := NilZero.string_of_uint (Nat.to_uint i).

(** The loop, with [todo] iterations left before [i] reaches 1000:
<<
  for (unsigned i = 0; i < 1000; i++) {
    conf::Key k = functionItem->functionKey("/factors/" + std::to_string(i));
    auto const &it = conf::kvs.find(k);
    if (it == conf::kvs.end()) break;
    ... v = std::dynamic_pointer_cast<conf::String const>(v_);
    if (! v) { ...; continue; }
    if (v->toQString() == name) { isFactor = true; break; }
  }
>>
    [functionKey] is the key that the function item builds from a suffix; the
    result is [isFactor], which is [false] before the loop. *)
Fixpoint factor_loop (kvs : gmap string conf_Value) (functionKey : string -> string)
    (name_ : string) (todo i : nat) : bool :=
  match todo with
  | O => false
  | S todo' =>
      match kvs !! functionKey ("/factors/" ++ to_string i)%string with
      | None => false
      | Some (conf_String s) =>
          if String.eqb s name_ then true
          else factor_loop kvs functionKey name_ todo' (S i)
      | Some conf_other => factor_loop kvs functionKey name_ todo' (S i)
      end
  end.

Definition isFactor (kvs : gmap string conf_Value) (functionKey : string -> string)
    (name_ : string) : bool :=
  factor_loop kvs functionKey name_ 1000 0.

(** The value stored for the factor number [i]. *)
Definition factor (kvs : gmap string conf_Value) (functionKey : string -> string)
    (i : nat) : option conf_Value :=
  kvs !! functionKey ("/factors/" ++ to_string i)%string.

(** ** Inputs used in the examples below *)

(** Three functions whose rows are 0, 5 and 2. *)
Definition three_functions : list FunctionItem :=
  [mk_item 100 "f" 0 (30, 0) tt; mk_item 101 "g" 5 (7, 7) tt;
   mk_item 102 "h" 2 (30, 60) tt].

(** Two sites of the same name; only the second has the program [p], with
    one function [f]. *)
Definition shadowed_sites : list SiteItem :=
  [mk_item 1 "s" 0 (0, 0) [];
   mk_item 2 "s" 1 (0, 130)
     [mk_item 3 "p" 0 (0, 0) [mk_item 100 "f" 0 (30, 0) tt]]].

(** One site with one program of two functions, and a model in which the
    function at 101 waits for [s/p/f], which is there, and for [s/p/z],
    which is not. *)
Definition one_site : list SiteItem :=
  [mk_item 1 "s" 0 (0, 0)
     [mk_item 3 "p" 0 (0, 0)
        [mk_item 100 "f" 0 (30, 0) tt; mk_item 101 "g" 1 (30, 30) tt]]].
Definition waiting_model : GraphModel :=
  mk_model one_site ∅
           [mk_pending 101 "s" "p" "z"; mk_pending 101 "s" "p" "f"] [].

(** The sites after the site [t] has been asked for in [one_site]. *)
Definition with_new_site : list SiteItem * nat * list signal :=
  updateKey_site one_site "t" 7 9 (0, 0).

End Graph.

Module RingbufFacts.
Import Ringbuf.

(** *** The cursor functions without their wrap-around *)

Lemma u32_id x : 0 <= x < u32_mod -> u32 x = x.
Proof. intros H. unfold u32. apply Z.mod_small. exact H. Qed.

Lemma u32_mod_val : u32_mod = 4294967296.
Proof. reflexivity. Qed.

Ltac u32_arith :=
  unfold u32; rewrite ?u32_mod_val in *; Z.div_mod_to_equations; lia.

Lemma num_entries_plain rbf pt ch :
  is_u32 (num_words rbf) -> cursor_ok rbf pt -> cursor_ok rbf ch ->
  ringbuf_file_num_entries rbf pt ch =
    if ch <=? pt then pt - ch else pt + num_words rbf - ch.
Proof.
  unfold is_u32, cursor_ok, ringbuf_file_num_entries.
  intros HN Hp Hc. destruct (Z.leb_spec ch pt); u32_arith.
Qed.

Lemma num_free_plain rbf ct ph :
  is_u32 (num_words rbf) -> cursor_ok rbf ct -> cursor_ok rbf ph ->
  ringbuf_file_num_free rbf ct ph =
    if ph <? ct then ct - ph - 1 else ct + num_words rbf - ph - 1.
Proof.
  unfold is_u32, cursor_ok, ringbuf_file_num_free.
  intros HN Hp Hc. destruct (Z.ltb_spec ph ct); u32_arith.
Qed.

(** *** Reading and writing the word array *)










(** *** Arithmetic of positions around the ring *)

Ltac zcases :=
  repeat match goal with
  | |- context [?a <? ?b] => destruct (Z.ltb_spec a b)
  | |- context [?a <=? ?b] => destruct (Z.leb_spec a b)
  | |- context [?a =? ?b] => destruct (Z.eqb_spec a b)
  | H : context [?a <? ?b] |- _ => destruct (Z.ltb_spec a b)
  | H : context [?a <=? ?b] |- _ => destruct (Z.leb_spec a b)
  | H : context [?a =? ?b] |- _ => destruct (Z.eqb_spec a b)
  end.

Ltac ring_arith :=
  unfold rec_next, rec_start, rec_cost, next_pos, straddles, dist in *;
  zcases; try congruence; try lia.

Lemma len_nonneg (p : list Z) : 0 <= len p.
Proof. unfold len. lia. Qed.

Lemma rec_facts N pos n :
  0 <= pos < N -> 0 <= n -> rec_cost N pos n < N ->
  0 <= rec_start N pos n /\
  rec_start N pos n + 1 + n <= N /\
  0 <= rec_next N pos n < N /\
  dist N pos (rec_next N pos n) = rec_cost N pos n /\
  1 <= rec_cost N pos n.
Proof. intros Hp Hn Hc. ring_arith. Qed.



Lemma dist_cut N a b x :
  0 <= a < N -> 0 <= b < N -> 0 <= x < N ->
  dist N a b <= dist N a x ->
  dist N b x = dist N a x - dist N a b.
Proof. intros Ha Hb Hx H. ring_arith. Qed.


(** *** The chain of records *)

Lemma chain_cost_nonneg d N q : forall pos,
  0 <= pos < N -> chain d N pos q -> 0 <= chain_cost N pos q.
Proof.
  induction q as [| p q IH]; intros pos Hp Hc; simpl in *; [lia |].
  destruct Hc as [(Hlt & _) Hq].
  destruct (rec_facts N pos (len p) Hp (len_nonneg p) Hlt) as (_ & _ & Hn & _ & H1).
  specialize (IH _ Hn Hq). lia.
Qed.






(** *** The operations on a channel that holds a queue of records *)

Ltac unfold_setters :=
  unfold ringbuf_enqueue_commit, ringbuf_dequeue_commit, set_prod_head,
    set_prod_tail, set_cons_head, set_cons_tail, set_num_allocs, set_data in *;
  simpl in *.

Lemma holds_cursors_ok rb q : holds rb q -> cursors_ok rb.
Proof.
  intros (HN & _ & (Hp & Hc) & Hch & Hpt & _).
  unfold cursors_ok, cursor_ok, is_u32. rewrite Hp, <- Hc. lia.
Qed.

Lemma num_entries_dist rb :
  cursors_ok rb ->
  ringbuf_file_num_entries rb (prod_tail rb) (cons_head rb) =
  dist (num_words rb) (cons_head rb) (prod_tail rb).
Proof.
  intros (HN & _ & Hpt & Hch & _).
  rewrite num_entries_plain by assumption.
  unfold cursor_ok in *. ring_arith.
Qed.

Lemma num_free_dist rb :
  cursors_ok rb ->
  ringbuf_file_num_free rb (cons_tail rb) (prod_head rb) =
  num_words rb - 1 - dist (num_words rb) (cons_tail rb) (prod_head rb).
Proof.
  intros (HN & Hph & _ & _ & Hct).
  rewrite num_free_plain by assumption.
  unfold cursor_ok in *. ring_arith.
Qed.

(** Reserving the oldest record of a non-empty queue yields its span and its
    size in bytes; releasing it leaves the rest of the queue. *)
Lemma dequeue_alloc_holds rb p q :
  holds rb (p :: q) ->
  let N := num_words rb in
  let nxt := rec_next N (cons_head rb) (len p) in
  ringbuf_dequeue_alloc rb =
    (len p * 4, set_cons_head nxt rb,
     mk_tx (rec_start N (cons_head rb) (len p) + 1) nxt (cons_head rb)) /\
  words_from (data rb) (rec_start N (cons_head rb) (len p) + 1) (len p) = p /\
  len p < N /\
  holds (set_cons_tail nxt (set_cons_head nxt rb)) q.
Proof.
  intros H N nxt. pose proof (holds_cursors_ok _ _ H) as Hok.
  destruct H as (HN & Hlen & (Hp & Hc) & Hch & Hpt & Hchain & Hend & Hcost).
  simpl in Hchain, Hend, Hcost. destruct Hchain as [Hr Hq].
  destruct Hr as (Hlt & Hm & Hl & Hw).
  pose proof (len_nonneg p) as Hn.
  fold N in HN, Hlen, Hch, Hpt, Hq, Hend, Hcost, Hlt, Hm, Hl, Hw.
  destruct (rec_facts N (cons_head rb) (len p) Hch Hn Hlt)
    as (Hs0 & Hs1 & Hnx & Hdist & H1).
  fold nxt in Hq, Hend, Hcost, Hnx, Hdist.
  pose proof (chain_cost_nonneg _ _ _ _ Hnx Hq) as Hq0.
  assert (Hstart : (if word_at (data rb) (cons_head rb) =? UINT32_MAX
                    then 0 else cons_head rb) = rec_start N (cons_head rb) (len p)).
  { unfold rec_start in *. destruct (straddles N (cons_head rb) (len p)) eqn:Hst.
    - rewrite Hm by reflexivity. rewrite Z.eqb_refl. reflexivity.
    - rewrite Hl. destruct (Z.eqb_spec (len p) UINT32_MAX) as [E | _];
        [| reflexivity].
      unfold UINT32_MAX in E. lia. }
  split; [| split; [exact Hw | split; [lia |]]].
  - unfold ringbuf_dequeue_alloc. rewrite num_entries_dist by exact Hok.
    fold N. rewrite <- Hcost.
    destruct (Z.ltb_spec (rec_cost N (cons_head rb) (len p) + chain_cost N nxt q) 1);
      [lia |].
    rewrite Hstart, Hl. reflexivity.
  - unfold holds, quiescent. unfold_setters. fold N.
    repeat split; try assumption; try lia.
    rewrite (dist_cut N (cons_head rb) nxt (prod_tail rb)) by (try assumption; lia).
    lia.
Qed.












(** A channel that does not wrap accepts every record that leaves it short
    of full. *)
Lemma ringbuf_enqueue_accepts rb (p : list Z) :
  wrap rb = false ->
  rec_cost (num_words rb) (prod_head rb) (len p)
    < ringbuf_file_num_free rb (cons_tail rb) (prod_head rb) ->
  fst (ringbuf_enqueue rb p (len p)) = RB_OK.
Proof.
  intros Hw Hroom. unfold ringbuf_enqueue, ringbuf_enqueue_alloc. cbv zeta.
  rewrite Hw. fold (straddles (num_words rb) (prod_head rb) (len p)).
  fold (rec_cost (num_words rb) (prod_head rb) (len p)).
  destruct (Z.ltb_spec (rec_cost (num_words rb) (prod_head rb) (len p))
              (ringbuf_file_num_free rb (cons_tail rb) (prod_head rb)));
    [reflexivity | lia].
Qed.




(** *** The queue along a run *)






(** *** Matched pairs *)





(** *** Properties of the channel *)



(** On that run the two accepted payloads that fit and the one enqueued after
    room was made come back unchanged, in order. *)
Example demo_run :
  enqueued (run (ringbuf_create false 8) demo_ops) = [[11; 12]; [21]; [41; 42]] /\
  dequeued (run (ringbuf_create false 8) demo_ops) = [[11; 12]; [21]; [41; 42]].
Proof. split; reflexivity. Qed.

(** When the oldest record does not fit the caller's buffer, [ringbuf_dequeue]
    returns -1 and copies nothing, but the consumer head stays on the far side
    of the record while the consumer tail has not moved. *)
Lemma ringbuf_dequeue_too_small rb p q (buf : list Z) max_size :
  holds rb (p :: q) -> max_size < len p * 4 ->
  exists rb',
    ringbuf_dequeue rb buf max_size = (-1, rb', buf) /\
    cons_head rb' = rec_next (num_words rb) (cons_head rb) (len p) /\
    cons_head rb' <> cons_head rb /\
    cons_tail rb' = cons_tail rb.
Proof.
  intros H Hm.
  destruct (dequeue_alloc_holds rb p q H) as (Halloc & _ & _ & _).
  pose proof (len_nonneg p) as Hn.
  eexists. unfold ringbuf_dequeue. rewrite Halloc.
  destruct (Z.ltb_spec (len p * 4) 0); [lia |].
  destruct (Z.ltb_spec max_size (len p * 4)); [| lia].
  split; [reflexivity |]. unfold_setters.
  split; [reflexivity |]. split; [| reflexivity].
  destruct H as (HN & _ & _ & Hch & _ & ((Hlt & _) & _) & _).
  destruct (rec_facts _ _ _ Hch Hn Hlt) as (_ & _ & Hnx & Hd & Hc1).
  intros E. rewrite E in Hd. unfold dist in Hd.
  rewrite Z.leb_refl in Hd. lia.
Qed.

(** C3.  A channel of 16 words holds one record of 3 words (12 bytes) and the
    caller's buffer has room for 4 bytes: [ringbuf_dequeue] returns -1 and
    leaves the buffer alone, but the consumer head has moved from 0 to 4 and
    nothing was committed or rolled back: the channel is not as it was. *)
Theorem ringbuf_dequeue_too_small_leaks :
  cons_head holding_16_3 = 0 /\ cons_tail holding_16_3 = 0 /\
  let '(ret, rb', buf') := ringbuf_dequeue holding_16_3 [0] 4 in
  ret = -1 /\ buf' = [0] /\
  cons_head rb' = 4 /\ cons_tail rb' = 0 /\ rb' <> holding_16_3.
Proof.
  vm_compute. repeat split; try reflexivity. intros E. discriminate E.
Qed.

(** The identity fails while a reservation is pending: 3 words (4 with the
    length word) reserved on a fresh channel of 16 words leave 11 words free
    and none readable. *)
Lemma gap_identity_fails_when_reserved :
  cursors_ok reserved_16_3 /\
  prod_head reserved_16_3 = 4 /\ prod_tail reserved_16_3 = 0 /\
  cons_head reserved_16_3 = 0 /\ cons_tail reserved_16_3 = 0 /\
  ~ gap_identity reserved_16_3.
Proof.
  split; [| repeat split; try reflexivity].
  - unfold cursors_ok, cursor_ok, is_u32. vm_compute. intuition discriminate.
  - unfold gap_identity. vm_compute. discriminate.
Qed.

Lemma quiescent_gap rb : cursors_ok rb -> quiescent rb -> gap_identity rb.
Proof.
  intros Hok (Hp & Hc). unfold gap_identity.
  rewrite num_free_dist, num_entries_dist by exact Hok.
  destruct Hok as (_ & Hph & Hpt & Hch & Hct). unfold cursor_ok in *.
  rewrite Hp, Hc in *. lia.
Qed.

(** Every state a run of complete operations reaches on a fresh channel
    satisfies the identity. *)
Lemma holds_gap_identity rb q : holds rb q -> gap_identity rb.
Proof.
  intros H. apply quiescent_gap.
  - eapply holds_cursors_ok, H.
  - apply H.
Qed.

(** C4, amended.  When no reservation is pending (producer head and tail agree,
    and so do consumer head and tail) and the cursors are below the capacity,
    free(cons_tail, prod_head) + used(prod_tail, cons_head) + 1 is the
    capacity. *)
Theorem gap_identity_quiescent rb :
  cursors_ok rb -> quiescent rb ->
  ringbuf_file_num_free rb (cons_tail rb) (prod_head rb) +
  ringbuf_file_num_entries rb (prod_tail rb) (cons_head rb) + 1 = num_words rb.
Proof. exact (quiescent_gap rb). Qed.

Lemma gap_identity_quiescent_witness :
  (cursors_ok holding_16_3 /\ quiescent holding_16_3) /\
  ringbuf_file_num_free holding_16_3 (cons_tail holding_16_3) (prod_head holding_16_3) +
  ringbuf_file_num_entries holding_16_3 (prod_tail holding_16_3) (cons_head holding_16_3)
  + 1 = num_words holding_16_3.
Proof.
  assert (H1 : cursors_ok holding_16_3).
  { unfold cursors_ok, cursor_ok, is_u32. vm_compute. intuition discriminate. }
  assert (H2 : quiescent holding_16_3) by (split; reflexivity).
  split; [split; assumption |].
  exact (gap_identity_quiescent holding_16_3 H1 H2).
Defined.

(** C5.  With all cursors below the capacity, no word is readable exactly when
    producer tail and consumer head agree, no word is free exactly when the
    producer head is one behind the consumer tail modulo the capacity, and at
    most capacity - 1 words are readable. *)
Theorem empty_full_conditions rbf pt ch ct ph :
  is_u32 (num_words rbf) ->
  cursor_ok rbf pt -> cursor_ok rbf ch -> cursor_ok rbf ct -> cursor_ok rbf ph ->
  (ringbuf_file_num_entries rbf pt ch = 0 <-> pt = ch) /\
  (ringbuf_file_num_free rbf ct ph = 0 <->
   ph mod num_words rbf = (ct - 1) mod num_words rbf) /\
  ringbuf_file_num_entries rbf pt ch <= num_words rbf - 1.
Proof.
  intros HN Hpt Hch Hct Hph.
  rewrite num_entries_plain, num_free_plain by assumption.
  unfold cursor_ok, is_u32 in *.
  rewrite (Z.mod_small ph) by lia.
  assert (Hm : (ct - 1) mod num_words rbf =
               if ct =? 0 then num_words rbf - 1 else ct - 1).
  { destruct (Z.eqb_spec ct 0) as [-> | Hne].
    - symmetry. apply (Z.mod_unique _ _ (-1)); lia.
    - apply Z.mod_small. lia. }
  rewrite Hm. zcases; lia.
Qed.

Lemma empty_full_conditions_witness :
  (is_u32 (num_words fresh_16) /\ cursor_ok fresh_16 5 /\ cursor_ok fresh_16 5 /\
   cursor_ok fresh_16 0 /\ cursor_ok fresh_16 15) /\
  (ringbuf_file_num_entries fresh_16 5 5 = 0 <-> 5 = 5) /\
  (ringbuf_file_num_free fresh_16 0 15 = 0 <->
   15 mod num_words fresh_16 = (0 - 1) mod num_words fresh_16) /\
  ringbuf_file_num_entries fresh_16 5 5 <= num_words fresh_16 - 1.
Proof.
  assert (H0 : is_u32 (num_words fresh_16))
    by (unfold is_u32; rewrite u32_mod_val; simpl; lia).
  assert (H1 : cursor_ok fresh_16 5) by (unfold cursor_ok; simpl; lia).
  assert (H2 : cursor_ok fresh_16 0) by (unfold cursor_ok; simpl; lia).
  assert (H3 : cursor_ok fresh_16 15) by (unfold cursor_ok; simpl; lia).
  split; [exact (conj H0 (conj H1 (conj H1 (conj H2 H3)))) |].
  exact (empty_full_conditions fresh_16 5 5 0 15 H0 H1 H1 H2 H3).
Defined.

(** *** Further properties of the header's functions *)

(** X1.  Whatever is pending, the words of the ring are accounted for: when
    the spans being read (consumer tail to head), readable (consumer head to
    producer tail) and being written (producer tail to head) follow one
    another without lapping the ring, the free words, these three spans and
    the reserved word add up to the capacity. *)
Theorem words_accounted rb :
  cursors_ok rb ->
  ringbuf_file_num_entries rb (cons_head rb) (cons_tail rb) +
  ringbuf_file_num_entries rb (prod_tail rb) (cons_head rb) +
  ringbuf_file_num_entries rb (prod_head rb) (prod_tail rb) < num_words rb ->
  ringbuf_file_num_free rb (cons_tail rb) (prod_head rb) +
  ringbuf_file_num_entries rb (cons_head rb) (cons_tail rb) +
  ringbuf_file_num_entries rb (prod_tail rb) (cons_head rb) +
  ringbuf_file_num_entries rb (prod_head rb) (prod_tail rb) + 1 = num_words rb.
Proof.
  intros (HN & Hph & Hpt & Hch & Hct).
  rewrite !num_entries_plain, num_free_plain by assumption.
  unfold cursor_ok in *. intros H. zcases; lia.
Qed.

Lemma words_accounted_witness :
  (cursors_ok in_flight_16 /\
   ringbuf_file_num_entries in_flight_16 (cons_head in_flight_16) (cons_tail in_flight_16) +
   ringbuf_file_num_entries in_flight_16 (prod_tail in_flight_16) (cons_head in_flight_16) +
   ringbuf_file_num_entries in_flight_16 (prod_head in_flight_16) (prod_tail in_flight_16)
   < num_words in_flight_16) /\
  ringbuf_file_num_free in_flight_16 (cons_tail in_flight_16) (prod_head in_flight_16) +
  ringbuf_file_num_entries in_flight_16 (cons_head in_flight_16) (cons_tail in_flight_16) +
  ringbuf_file_num_entries in_flight_16 (prod_tail in_flight_16) (cons_head in_flight_16) +
  ringbuf_file_num_entries in_flight_16 (prod_head in_flight_16) (prod_tail in_flight_16)
  + 1 = num_words in_flight_16.
Proof.
  assert (H1 : cursors_ok in_flight_16).
  { unfold cursors_ok, cursor_ok, is_u32. vm_compute. intuition discriminate. }
  assert (H2 : ringbuf_file_num_entries in_flight_16 (cons_head in_flight_16) (cons_tail in_flight_16) +
   ringbuf_file_num_entries in_flight_16 (prod_tail in_flight_16) (cons_head in_flight_16) +
   ringbuf_file_num_entries in_flight_16 (prod_head in_flight_16) (prod_tail in_flight_16)
   < num_words in_flight_16) by (vm_compute; reflexivity).
  split; [split; assumption |].
  exact (words_accounted in_flight_16 H1 H2).
Defined.

(** X2.  The free count that [PRINT_RB] shows is computed from the producer
    tail and the consumer head, in the places of the consumer tail and the
    producer head: it is the capacity minus one on a channel with nothing to
    read and the number of readable words minus one otherwise. *)
Theorem PRINT_RB_free_is_entries rb :
  cursors_ok rb ->
  PRINT_RB_free rb =
    if prod_tail rb =? cons_head rb then num_words rb - 1
    else ringbuf_file_num_entries rb (prod_tail rb) (cons_head rb) - 1.
Proof.
  intros (HN & Hph & Hpt & Hch & Hct). unfold PRINT_RB_free.
  rewrite num_entries_plain, num_free_plain by assumption.
  unfold cursor_ok in *. zcases; lia.
Qed.

Lemma PRINT_RB_free_is_entries_witness :
  cursors_ok holding_16_3 /\
  PRINT_RB_free holding_16_3 =
    if prod_tail holding_16_3 =? cons_head holding_16_3 then num_words holding_16_3 - 1
    else ringbuf_file_num_entries holding_16_3 (prod_tail holding_16_3)
                                  (cons_head holding_16_3) - 1.
Proof.
  assert (H1 : cursors_ok holding_16_3).
  { unfold cursors_ok, cursor_ok, is_u32. vm_compute. intuition discriminate. }
  split; [exact H1 |].
  exact (PRINT_RB_free_is_entries holding_16_3 H1).
Defined.




End RingbufFacts.

Module SerFacts.
Import Ser.

(** [bitSet] walks to the byte [null_i / 8] bytes after [nullmask] and tests
    its bit [null_i mod 8]: the byte lies in the word [bitSet_word]. *)
Lemma bitSet_byte mem nullmask null_i :
  bitSet mem nullmask null_i =
  negb (Z.land (byte_at mem (nullmask + null_i / 8))
               (Z.shiftl 1 (Z.of_nat (null_i mod 8))) =? 0).
Proof.
  funelim (bitSet mem nullmask null_i).
  - rewrite H. 
    replace (null_i / 8)%nat with (S ((null_i - 8) / 8)).
    + replace ((null_i - 8) mod 8)%nat with (null_i mod 8)%nat.
      * f_equal. f_equal. f_equal. f_equal. lia.
      * replace null_i with ((null_i - 8) + 1 * 8)%nat at 1 by lia.
        rewrite Nat.Div0.mod_add. reflexivity.
    + replace null_i with ((null_i - 8) + 1 * 8)%nat at 2 by lia.
      rewrite Nat.div_add by lia. lia.
  - rewrite Nat.div_small, Nat.mod_small, Nat.add_0_r by lia. reflexivity.
Qed.


Section Loops.
Variable mem : list Z.
Variable nullmask : nat.

Lemma count_flags_app pre post :
  count_flags (pre ++ post) = (count_flags pre + count_flags post)%nat.
Proof. unfold count_flags. rewrite List.filter_app, length_app. reflexivity. Qed.

Lemma child_null_i nullable_ dec null_i start v s k r :
  child mem nullmask nullable_ dec null_i start = Some (v, s, k, r) ->
  k = (null_i + if nullable_ then 1 else 0)%nat.
Proof.
  unfold child. destruct nullable_.
  - destruct (bitSet mem nullmask null_i).
    + destruct (dec start) as [[[v' s'] r'] |]; simpl; intros E; [| discriminate E].
      injection E as <- <- <- <-. lia.
    + intros E. injection E as <- <- <- <-. lia.
  - destruct (dec start) as [[[v' s'] r'] |]; simpl; intros E; [| discriminate E].
    injection E as <- <- <- <-. lia.
Qed.

Lemma tuple_loop_app pre : forall post null_i start,
  tuple_loop mem nullmask (pre ++ post) null_i start =
  '(vs1, s1, r1) ← tuple_loop mem nullmask pre null_i start;
  '(vs2, s2, r2) ← tuple_loop mem nullmask post (null_i + count_flags pre) s1;
  Some (vs1 ++ vs2, s2, r1 ++ r2).
Proof.
  induction pre as [| [n d] pre IH]; intros post null_i start; simpl.
  - rewrite Nat.add_0_r.
    destruct (tuple_loop mem nullmask post null_i start) as [[[vs s] r] |];
      reflexivity.
  - destruct (child mem nullmask n d null_i start) as [[[[v s] k] r] |] eqn:Ec;
      simpl; [| reflexivity].
    apply child_null_i in Ec. subst k. rewrite IH.
    replace (null_i + count_flags ((n, d) :: pre))%nat
      with (null_i + (if n then 1 else 0) + count_flags pre)%nat
      by (unfold count_flags; simpl; destruct n; simpl; lia).
    destruct (tuple_loop mem nullmask pre _ s) as [[[vs1 s1] r1] |]; simpl;
      [| reflexivity].
    destruct (tuple_loop mem nullmask post _ s1) as [[[vs2 s2] r2] |]; simpl;
      [| reflexivity].
    rewrite app_assoc. reflexivity.
Qed.

Lemma tuple_loop_nullable pre dec post null_i start :
  tuple_loop mem nullmask (pre ++ (true, dec) :: post) null_i start =
  '(vs1, s1, r1) ← tuple_loop mem nullmask pre null_i start;
  let k := (null_i + count_flags pre)%nat in
  '(v, s, r) ← (if bitSet mem nullmask k then dec s1 else Some (Null, s1, []));
  '(vs2, s2, r2) ← tuple_loop mem nullmask post (S k) s;
  Some (vs1 ++ v :: vs2, s2, r1 ++ (bitSet_word nullmask k :: r) ++ r2).
Proof.
  rewrite tuple_loop_app.
  destruct (tuple_loop mem nullmask pre null_i start) as [[[vs1 s1] r1] |];
    simpl; [| reflexivity].
  unfold child.
  destruct (bitSet mem nullmask (null_i + count_flags pre)); simpl.
  - destruct (dec s1) as [[[v s] r] |]; simpl; [| reflexivity].
    destruct (tuple_loop mem nullmask post _ s) as [[[vs2 s2] r2] |]; reflexivity.
  - destruct (tuple_loop mem nullmask post _ s1) as [[[vs2 s2] r2] |]; reflexivity.
Qed.

Lemma vec_loop_tuple_loop dim nullable_ dec : forall null_i start,
  vec_loop mem nullmask dim nullable_ dec null_i start =
  tuple_loop mem nullmask (replicate dim (nullable_, dec)) null_i start.
Proof.
  induction dim as [| dim IH]; intros null_i start; simpl; [reflexivity |].
  destruct (child mem nullmask nullable_ dec null_i start) as [[[[v s] k] r] |];
    simpl; [| reflexivity].
  rewrite IH. reflexivity.
Qed.

Lemma record_loop_wire fields : forall serOrder null_i start fieldValues,
  match visited fields serOrder with
  | None => record_loop mem nullmask fields serOrder null_i start fieldValues = None
  | Some vis =>
      drop_reads (record_loop mem nullmask fields serOrder null_i start fieldValues) =
      match tuple_loop mem nullmask (List.map snd vis) null_i start with
      | Some (vs, s, _) =>
          Some (place serOrder (zip (List.map fst vis) vs) fieldValues, s)
      | None => None
      end
  end.
Proof.
  induction serOrder as [| i rest IH]; intros null_i start fv; simpl;
    [reflexivity |].
  destruct (fields !! i) as [[name [n d]] |] eqn:Ei; [| reflexivity].
  destruct (visited fields rest) as [vis |] eqn:Ev; simpl.
  - destruct (child mem nullmask n d null_i start) as [[[[v s] k] r] |];
      simpl; [| reflexivity].
    specialize (IH k s (<[i := (name, Some v)]> fv)).
    destruct (record_loop mem nullmask fields rest k s _) as [[[fv' s'] r'] |];
      destruct (tuple_loop mem nullmask (List.map snd vis) k s) as [[[vs s''] r''] |];
      simpl in *; try discriminate IH; [| reflexivity].
    injection IH as -> ->. reflexivity.
  - destruct (child mem nullmask n d null_i start) as [[[[v s] k] r] |];
      simpl; [| reflexivity].
    rewrite (IH k s (<[i := (name, Some v)]> fv)). reflexivity.
Qed.

End Loops.

(** *** Placing values at their logical index *)

Lemma place_length serOrder : forall nvs fv,
  length (place serOrder nvs fv) = length fv.
Proof.
  induction serOrder as [| i rest IH]; intros [| [name v] nvs] fv; simpl;
    try reflexivity.
  rewrite IH. apply length_insert.
Qed.

Lemma place_other serOrder j : forall nvs fv,
  j ∉ serOrder -> place serOrder nvs fv !! j = fv !! j.
Proof.
  induction serOrder as [| i rest IH]; intros [| [name v] nvs] fv Hj; simpl;
    try reflexivity.
  apply not_elem_of_cons in Hj. destruct Hj as [Hne Hj].
  rewrite IH by exact Hj. apply list_lookup_insert_ne. congruence.
Qed.

Lemma stored_place serOrder : forall nvs fv,
  NoDup serOrder -> Forall (fun i => (i < length fv)%nat) serOrder ->
  length nvs = length serOrder ->
  stored (place serOrder nvs fv) serOrder = Some (List.map snd nvs).
Proof.
  induction serOrder as [| i rest IH]; intros [| [name v] nvs] fv Hnd Hlt Hlen;
    simpl in *; try discriminate Hlen; [reflexivity |].
  apply NoDup_cons in Hnd. destruct Hnd as [Hi Hnd].
  apply Forall_cons in Hlt. destruct Hlt as [Hlt Hrest].
  rewrite place_other by exact Hi.
  rewrite list_lookup_insert_eq by exact Hlt.
  rewrite IH; [reflexivity | exact Hnd | | lia].
  rewrite length_insert. exact Hrest.
Qed.

Lemma place_lookup serOrder : forall nvs fv i j name v,
  NoDup serOrder -> serOrder !! i = Some j -> nvs !! i = Some (name, v) ->
  (j < length fv)%nat ->
  place serOrder nvs fv !! j = Some (name, Some v).
Proof.
  induction serOrder as [| j0 rest IH]; intros nvs fv i j name v Hnd Hi Hv Hlt;
    [discriminate Hi |].
  apply NoDup_cons in Hnd. destruct Hnd as [Hj0 Hnd].
  destruct nvs as [| [name0 v0] nvs]; [discriminate Hv |].
  destruct i as [| i]; simpl in *.
  - injection Hi as ->. injection Hv as -> ->.
    rewrite place_other by exact Hj0. apply list_lookup_insert_eq. exact Hlt.
  - apply (IH nvs _ i); try assumption. rewrite length_insert. exact Hlt.
Qed.

Lemma visited_map {A B} (g : A -> B) (fields : list A) serOrder :
  visited (List.map g fields) serOrder =
  option_map (List.map g) (visited fields serOrder).
Proof.
  induction serOrder as [| i rest IH]; simpl; [reflexivity |].
  rewrite IH. change (List.map g fields) with (g <$> fields).
  rewrite list_lookup_fmap.
  destruct (fields !! i); simpl; [| reflexivity].
  destruct (visited fields rest); reflexivity.
Qed.

Lemma visited_bound {A} (fields : list A) serOrder vis :
  visited fields serOrder = Some vis ->
  Forall (fun i => (i < length fields)%nat) serOrder /\
  length vis = length serOrder.
Proof.
  revert vis. induction serOrder as [| i rest IH]; intros vis E; simpl in E.
  - injection E as <-. split; [constructor | reflexivity].
  - destruct (fields !! i) as [f |] eqn:Ei; [| discriminate E].
    destruct (visited fields rest) as [fs |]; [| discriminate E].
    injection E as <-. destruct (IH fs eq_refl) as [Hb Hl].
    split; [constructor; [eapply lookup_lt_Some, Ei | exact Hb] | simpl; lia].
Qed.

Lemma visited_lookup {A} (fields : list A) serOrder vis i j :
  visited fields serOrder = Some vis -> serOrder !! i = Some j ->
  vis !! i = fields !! j /\ is_Some (fields !! j).
Proof.
  revert vis i. induction serOrder as [| j0 rest IH]; intros vis i E Hi;
    [discriminate Hi |]. simpl in E.
  destruct (fields !! j0) as [f |] eqn:Ej; [| discriminate E].
  destruct (visited fields rest) as [fs |]; [| discriminate E].
  injection E as <-. destruct i as [| i]; simpl in *.
  - injection Hi as <-. rewrite Ej. split; [reflexivity | eexists; reflexivity].
  - apply (IH fs i eq_refl Hi).
Qed.

Lemma tuple_loop_length mem nullmask fields : forall null_i start vs s r,
  tuple_loop mem nullmask fields null_i start = Some (vs, s, r) ->
  length vs = length fields.
Proof.
  induction fields as [| [n d] fields IH]; intros null_i start vs s r E;
    simpl in E.
  - injection E as <- <- <-. reflexivity.
  - destruct (child mem nullmask n d null_i start) as [[[[v s1] k] r1] |];
      simpl in E; [| discriminate E].
    destruct (tuple_loop mem nullmask fields k s1) as [[[vs' s'] r'] |] eqn:El;
      simpl in E; [| discriminate E].
    injection E as <- <- <-. simpl. f_equal. eapply IH, El.
Qed.


(** *** The three composite cases of [unserialize] *)

Lemma unserialize_tuple mem max n fields start topLevel :
  unserialize mem max (RamenTypeTuple TupleType n fields) start topLevel =
  if topLevel && n then None
  else
    let start1 := (start + nullmask_words (RamenTypeTuple TupleType n fields) topLevel)%nat in
    if (max <? start1)%nat then
      Some (Error "Invalid start/max", start1, seq start (max - start))
    else
      '(vs, s, r) ← tuple_loop mem (4 * start) (tuple_decoders mem max fields) 0 start1;
      Some (Tuple vs, s, seq start (max - start) ++ r).
Proof. reflexivity. Qed.

Lemma unserialize_vec mem max n dim sub start topLevel :
  unserialize mem max (RamenTypeVec VecType n dim sub) start topLevel =
  if topLevel && n then None
  else
    let start1 := (start + nullmask_words (RamenTypeVec VecType n dim sub) topLevel)%nat in
    if (max <? start1)%nat then
      Some (Error "Invalid start/max", start1, seq start (max - start))
    else
      '(vs, s, r) ← vec_loop mem (4 * start) dim (nullable sub)
                             (fun s => unserialize mem max sub s false) 0 start1;
      Some (Vec vs, s, seq start (max - start) ++ r).
Proof. reflexivity. Qed.

Lemma unserialize_record mem max n fields serOrder start topLevel :
  unserialize mem max (RamenTypeRecord RecordType n fields serOrder) start topLevel =
  if topLevel && n then None
  else
    let start1 :=
      (start + nullmask_words (RamenTypeRecord RecordType n fields serOrder) topLevel)%nat in
    if (max <? start1)%nat then
      Some (Error "Invalid start/max", start1, seq start (max - start))
    else
      '(fvs, s, r) ← record_loop mem (4 * start) (record_decoders mem max fields)
                                 serOrder 0 start1
                                 (replicate (length fields) (EmptyString, None));
      Some (Record fvs, s, seq start (max - start) ++ r).
Proof. reflexivity. Qed.

Lemma map_snd_zip {A B} (l1 : list A) : forall l2 : list B,
  (length l2 <= length l1)%nat -> List.map snd (zip l1 l2) = l2.
Proof.
  induction l1 as [| a l1 IH]; intros [| b l2] H; simpl in *;
    try reflexivity; [lia |].
  f_equal. apply IH. lia.
Qed.

(** A record is decoded as the tuple of its fields in wire order, each value
    then being stored, with the name of its field, at its logical index. *)
Lemma record_as_place mem max n fields serOrder start topLevel v s r :
  unserialize mem max (RamenTypeRecord RecordType n fields serOrder) start topLevel
    = Some (v, s, r) ->
  valueType v <> EmptyType ->
  exists wire vs,
    visited fields serOrder = Some wire /\
    decodes_children mem max (4 * start) (List.map snd wire) 0
      (start + nullmask_words (RamenTypeRecord RecordType n fields serOrder) topLevel)
      vs s /\
    length vs = length serOrder /\
    v = Record (place serOrder (zip (List.map fst wire) vs)
                      (replicate (length fields) (EmptyString, None))).
Proof.
  intros E Hne. rewrite unserialize_record in E. cbv zeta in E.
  destruct (topLevel && n); [discriminate E |].
  destruct (max <? _)%nat.
  { injection E as <- <- <-. contradiction Hne. reflexivity. }
  unfold decodes_children.
  set (start1 := (start + nullmask_words _ _)%nat) in *. clearbody start1.
  set (nm := (4 * start)%nat) in *. clearbody nm.
  set (fv0 := replicate (length fields) (EmptyString, None)) in *.
  pose proof (record_loop_wire mem nm (record_decoders mem max fields)
                serOrder 0%nat start1 fv0) as W.
  unfold record_decoders in W at 1. rewrite visited_map in W.
  destruct (record_loop _ _ _ _ _ _ _) as [[[fvs s'] r'] |]; simpl in E;
    [| discriminate E].
  injection E as <- <- <-.
  destruct (visited fields serOrder) as [wire |] eqn:Hw; simpl in W;
    [| discriminate W].
  rewrite !List.map_map in W. simpl in W.
  change (List.map (fun x : string * RamenType =>
                      (nullable x.2, fun s => unserialize mem max x.2 s false)) wire)
    with (List.map (fun x : string * RamenType =>
                      (fun subType => (nullable subType,
                                       fun s => unserialize mem max subType s false))
                        (snd x)) wire) in W.
  rewrite <- (List.map_map snd) in W.
  fold (tuple_decoders mem max (List.map snd wire)) in W.
  destruct (tuple_loop _ _ _ _ _) as [[[vs s''] r''] |] eqn:El;
    [| discriminate W].
  injection W as -> ->. exists wire, vs.
  destruct (visited_bound _ _ _ Hw) as [Hb Hl].
  pose proof (tuple_loop_length _ _ _ _ _ _ _ _ El) as Lv.
  unfold tuple_decoders in Lv. rewrite !length_map in Lv.
  split; [reflexivity |]. split; [rewrite El; reflexivity |].
  split; [lia | reflexivity].
Qed.

Lemma composite_as_loop mem max t start topLevel children v s r :
  composite t -> visit_order t = Some children ->
  unserialize mem max t start topLevel = Some (v, s, r) ->
  valueType v <> EmptyType ->
  exists vs,
    visit_values t v = Some vs /\
    decodes_children mem max (4 * start) children 0
                     (start + nullmask_words t topLevel) vs s.
Proof.
  intros Hc Hv E Hne. unfold decodes_children.
  destruct t as [ty n | ty n fields | ty n dim sub | ty n fields serOrder];
    simpl in Hc; [contradiction | | |].
  - subst ty. simpl in Hv. injection Hv as <-.
    rewrite unserialize_tuple in E. cbv zeta in E.
    destruct (topLevel && n); [discriminate E |].
    destruct (max <? _)%nat.
    { injection E as <- <- <-. contradiction Hne. reflexivity. }
    destruct (tuple_loop _ _ _ _ _) as [[[vs s'] r'] |]; simpl in E;
      [| discriminate E].
    injection E as <- <- <-. exists vs. split; reflexivity.
  - subst ty. simpl in Hv. injection Hv as <-.
    rewrite unserialize_vec in E. cbv zeta in E.
    destruct (topLevel && n); [discriminate E |].
    destruct (max <? _)%nat.
    { injection E as <- <- <-. contradiction Hne. reflexivity. }
    rewrite vec_loop_tuple_loop in E.
    unfold tuple_decoders. change (List.map ?f (replicate dim sub))
      with (f <$> replicate dim sub). rewrite fmap_replicate.
    destruct (tuple_loop _ _ _ _ _) as [[[vs s'] r'] |]; simpl in E;
      [| discriminate E].
    injection E as <- <- <-. exists vs. split; reflexivity.
  - destruct Hc as [-> Hnd].
    destruct (record_as_place _ _ _ _ _ _ _ _ _ _ E Hne)
      as (wire & vs & Hw & Hd & Hl & ->).
    simpl in Hv. rewrite visited_map, Hw in Hv. injection Hv as <-.
    exists vs. split; [| exact Hd]. simpl.
    destruct (visited_bound _ _ _ Hw) as [Hb Hlw].
    rewrite stored_place.
    + f_equal. apply map_snd_zip. rewrite !length_map. lia.
    + exact Hnd.
    + rewrite length_replicate. exact Hb.
    + rewrite length_zip, !length_map. lia.
Qed.

Lemma count_flags_decoders mem max fields :
  count_flags (tuple_decoders mem max fields) = count_nullable fields.
Proof.
  unfold count_flags, count_nullable, tuple_decoders.
  induction fields as [| t fields IH]; [reflexivity |]. simpl.
  rewrite filter_cons. destruct (decide (nullable t = true)) as [Hd | Hd].
  - rewrite Hd. simpl. f_equal. exact IH.
  - destruct (nullable t); [contradiction Hd; reflexivity | exact IH].
Qed.

Lemma scalar_not_null max need words msg v start dbg v' s r :
  v <> Null -> scalar max need words msg v start dbg = Some (v', s, r) -> v' <> Null.
Proof.
  unfold scalar. intros Hv. destruct (max <? start + need)%nat; intros E;
    injection E as <- <- <-; [discriminate | exact Hv].
Qed.

(** [unserialize] itself never returns [Null]: only a clear nullmask bit makes
    a child [Null]. *)
Lemma unserialize_not_null mem max t start topLevel v s r :
  unserialize mem max t start topLevel = Some (v, s, r) -> v <> Null.
Proof.
  intros E.
  destruct t as [ty n | ty n fs | ty n d sub | ty n fs so]; simpl in E;
    destruct (topLevel && n); try discriminate E;
    destruct ty;
    try (eapply scalar_not_null; [| exact E]; discriminate);
    repeat match type of E with
    | context [(?a <? ?b)%nat] => destruct (a <? b)%nat
    end;
    try (injection E as <- <- <-; discriminate).
  - destruct (tuple_loop _ _ _ _ _) as [[[vs s'] r'] |]; simpl in E;
      [injection E as <- <- <-; discriminate | discriminate E].
  - destruct (vec_loop _ _ _ _ _ _ _) as [[[vs s'] r'] |]; simpl in E;
      [injection E as <- <- <-; discriminate | discriminate E].
  - destruct (record_loop _ _ _ _ _ _ _) as [[[vs s'] r'] |]; simpl in E;
      [injection E as <- <- <-; discriminate | discriminate E].
Qed.

Lemma nullable_child_law mem max t start topLevel pre c post v s r :
  composite t -> visit_order t = Some (pre ++ c :: post) -> nullable c = true ->
  unserialize mem max t start topLevel = Some (v, s, r) ->
  valueType v <> EmptyType ->
  exists vs1 s1 w vs2,
    visit_values t v = Some (vs1 ++ w :: vs2) /\
    length vs1 = length pre /\
    decodes_children mem max (4 * start) pre 0
                     (start + nullmask_words t topLevel) vs1 s1 /\
    if bitSet mem (4 * start) (count_nullable pre) then
      exists s',
        drop_reads (unserialize mem max c s1 false) = Some (w, s') /\
        w <> Null /\
        decodes_children mem max (4 * start) post (S (count_nullable pre)) s' vs2 s
    else
      w = Null /\
      decodes_children mem max (4 * start) post (S (count_nullable pre)) s1 vs2 s.
Proof.
  intros Hc Hv Hn E Hne.
  destruct (composite_as_loop _ _ _ _ _ _ _ _ _ Hc Hv E Hne) as (vs & Hvs & Hl).
  unfold decodes_children in *. clear E Hc Hv.
  set (nm := (4 * start)%nat) in *. clearbody nm.
  set (start1 := (start + nullmask_words t topLevel)%nat) in *. clearbody start1.
  unfold tuple_decoders in Hl. rewrite List.map_app in Hl. simpl in Hl.
  rewrite Hn in Hl. fold (tuple_decoders mem max pre) in Hl.
  fold (tuple_decoders mem max post) in Hl.
  rewrite tuple_loop_nullable, count_flags_decoders in Hl. simpl in Hl.
  destruct (tuple_loop mem nm (tuple_decoders mem max pre) 0 start1)
    as [[[vs1 s1] r1] |] eqn:E1; simpl in Hl; [| discriminate Hl].
  pose proof (tuple_loop_length _ _ _ _ _ _ _ _ E1) as L1.
  unfold tuple_decoders in L1. rewrite length_map in L1.
  destruct (bitSet mem nm (count_nullable pre)).
  - destruct (unserialize mem max c s1 false) as [[[w s'] rw] |] eqn:Ew;
      simpl in Hl; [| discriminate Hl].
    destruct (tuple_loop mem nm (tuple_decoders mem max post) _ s')
      as [[[vs2 s2] r2] |] eqn:E2; simpl in Hl; [| discriminate Hl].
    injection Hl as <- <-. exists vs1, s1, w, vs2.
    split; [exact Hvs |]. split; [exact L1 |].
    split; [reflexivity |].
    exists s'. split; [rewrite Ew; reflexivity |].
    split; [| rewrite E2; reflexivity].
    eapply unserialize_not_null, Ew.
  - simpl in Hl.
    destruct (tuple_loop mem nm (tuple_decoders mem max post) _ s1)
      as [[[vs2 s2] r2] |] eqn:E2; simpl in Hl; [| discriminate Hl].
    injection Hl as <- <-. exists vs1, s1, Null, vs2.
    split; [exact Hvs |]. split; [exact L1 |].
    split; [reflexivity |].
    split; [reflexivity | rewrite E2; reflexivity].
Qed.


Lemma count_nullable_app l1 l2 :
  count_nullable (l1 ++ l2) = (count_nullable l1 + count_nullable l2)%nat.
Proof. unfold count_nullable. rewrite filter_app, length_app. reflexivity. Qed.

Lemma count_nullable_cons_true c l :
  nullable c = true -> count_nullable (c :: l) = S (count_nullable l).
Proof.
  intros H. unfold count_nullable. rewrite filter_cons, decide_True by exact H.
  reflexivity.
Qed.

Lemma child_at mem max t start topLevel pre c post v s r :
  composite t -> visit_order t = Some (pre ++ c :: post) -> nullable c = true ->
  unserialize mem max t start topLevel = Some (v, s, r) ->
  valueType v <> EmptyType ->
  exists vs w,
    visit_values t v = Some vs /\ vs !! length pre = Some w /\
    if bitSet mem (4 * start) (count_nullable pre) then w <> Null else w = Null.
Proof.
  intros Hc Hv Hn E Hne.
  destruct (nullable_child_law _ _ _ _ _ _ _ _ _ _ _ Hc Hv Hn E Hne)
    as (vs1 & s1 & w & vs2 & Hvs & Hl & _ & Hb).
  exists (vs1 ++ w :: vs2), w. split; [exact Hvs |]. split.
  - rewrite <- Hl. apply list_lookup_middle. reflexivity.
  - destruct (bitSet mem (4 * start) (count_nullable pre)).
    + destruct Hb as (_ & _ & Hw & _). exact Hw.
    + apply Hb.
Qed.

Lemma three_nullable_101 mem max t start topLevel a n1 b n2 c n3 d v s r :
  composite t ->
  unserialize mem max t start topLevel = Some (v, s, r) ->
  valueType v <> EmptyType ->
  visit_order t = Some (a ++ n1 :: b ++ n2 :: c ++ n3 :: d) ->
  count_nullable a = 0%nat -> count_nullable b = 0%nat -> count_nullable c = 0%nat ->
  nullable n1 = true -> nullable n2 = true -> nullable n3 = true ->
  bitSet mem (4 * start) 0 = true ->
  bitSet mem (4 * start) 1 = false ->
  bitSet mem (4 * start) 2 = true ->
  exists vs v1 v3,
    visit_values t v = Some vs /\
    vs !! length a = Some v1 /\ v1 <> Null /\
    vs !! (length a + 1 + length b)%nat = Some Null /\
    vs !! (length a + 1 + length b + 1 + length c)%nat = Some v3 /\ v3 <> Null.
Proof.
  intros Hc E Hne Hv Ha Hb Hcn H1 H2 H3 B0 B1 B2.
  destruct (child_at _ _ _ _ _ a n1 _ _ _ _ Hc Hv H1 E Hne) as (vs & v1 & Hvs & L1 & P1).
  rewrite Ha, B0 in P1.
  assert (Hv2 : visit_order t = Some ((a ++ n1 :: b) ++ n2 :: c ++ n3 :: d)).
  { rewrite Hv. f_equal. rewrite <- app_assoc. reflexivity. }
  destruct (child_at _ _ _ _ _ _ n2 _ _ _ _ Hc Hv2 H2 E Hne) as (vs' & v2 & Hvs' & L2 & P2).
  rewrite count_nullable_app, count_nullable_cons_true, Ha, Hb in P2 by exact H1.
  cbn [Nat.add] in P2. rewrite B1 in P2.
  assert (Hv3 : visit_order t = Some ((a ++ n1 :: b ++ n2 :: c) ++ n3 :: d)).
  { rewrite Hv. f_equal. rewrite <- app_assoc. simpl. rewrite <- app_assoc.
    reflexivity. }
  destruct (child_at _ _ _ _ _ _ n3 _ _ _ _ Hc Hv3 H3 E Hne) as (vs'' & v3 & Hvs'' & L3 & P3).
  rewrite count_nullable_app, count_nullable_cons_true, count_nullable_app,
    count_nullable_cons_true, Ha, Hb, Hcn in P3 by assumption.
  cbn [Nat.add] in P3. rewrite B2 in P3.
  rewrite Hvs in Hvs', Hvs''. injection Hvs' as <-. injection Hvs'' as <-.
  subst v2. exists vs, v1, v3.
  rewrite length_app in L2. simpl in L2.
  rewrite length_app in L3. simpl in L3. rewrite length_app in L3. simpl in L3.
  split; [exact Hvs |]. split; [exact L1 |]. split; [exact P1 |].
  split; [rewrite <- L2; f_equal; lia |].
  split; [rewrite <- L3; f_equal; lia | exact P3].
Qed.


Lemma scalar_ok max need words msg v start dbg :
  (start + need <= max)%nat ->
  scalar max need words msg v start dbg =
    Some (v, (start + words)%nat, dbg ++ seq start words).
Proof.
  intros H. unfold scalar. destruct (Nat.ltb_spec max (start + need)); [lia | reflexivity].
Qed.

Lemma scalar_inv max need words msg v start dbg v' s r :
  scalar max need words msg v start dbg = Some (v', s, r) ->
  valueType v' <> EmptyType ->
  v' = v /\ s = (start + words)%nat.
Proof.
  unfold scalar. destruct (max <? start + need)%nat; intros E Hne;
    injection E as <- <- <-; [contradiction Hne; reflexivity | split; reflexivity].
Qed.



(** *** Properties of the decoder *)

(** C2.  With one word left before the limit, the IPv4 case passes its check
    (which asks for one word), reads the word at the limit and returns an
    [Ipv4] value with the cursor beyond the limit. *)
Theorem ipv4_reads_past_limit :
  exists v reads,
    unserialize [7; 9] 1 ipv4_schema 0 true = Some (v, 2%nat, reads) /\
    valueType v = Ipv4Type /\ In 1%nat reads.
Proof.
  eexists _, _. vm_compute. repeat split. right. right. left. reflexivity.
Qed.

(** C6.  With five nullable children, one nullmask word is enough for five
    bits; the record case skips one word and decodes its fields from word 1
    on, the tuple and vector cases skip two and decode from word 2 on. *)
Theorem nullmask_words_differ :
  claimed_nullmask_words 5 = 1%nat /\
  (exists r,
     unserialize seven_words 7 (RamenTypeTuple TupleType false five_nullable) 0 true
     = Some (Tuple [U8 2; U8 3; U8 4; U8 5; U8 6], 7%nat, r)) /\
  (exists r,
     unserialize seven_words 7
                 (RamenTypeVec VecType false 5 (RamenTypeScalar U8Type true)) 0 true
     = Some (Vec [U8 2; U8 3; U8 4; U8 5; U8 6], 7%nat, r)) /\
  (exists r,
     unserialize seven_words 7
                 (RamenTypeRecord RecordType false five_nullable_named
                                  [0; 1; 2; 3; 4]%nat) 0 true
     = Some (Record (List.map (fun v => (EmptyString, Some v))
                              [U8 1; U8 2; U8 3; U8 4; U8 5]), 6%nat, r)).
Proof. vm_compute. repeat split; eexists; reflexivity. Qed.

(** C7.  Let [t] be a tuple, a vector or a record (with its own tag and, for a
    record, no index twice in its serialization order) for which
    [unserialize] returns a value that is not an [Error].  A nullable child
    preceded, in decoding order, by the children [pre] is governed by the
    nullmask bit whose index is the number of nullable children in [pre]:
    when the bit is clear the child is [Null] and the next sibling is decoded
    from the same cursor, when it is set the child is what [unserialize]
    returns for it.  In particular, with three nullable children among any
    non-nullable siblings and bits 0 and 2 set, bit 1 clear, the second
    nullable child is [Null] and the first and third are not. *)
Theorem nullmask_bit_per_nullable_child mem max t start topLevel v s r :
  composite t ->
  unserialize mem max t start topLevel = Some (v, s, r) ->
  valueType v <> EmptyType ->
  (forall pre c post,
     visit_order t = Some (pre ++ c :: post) -> nullable c = true ->
     exists vs1 s1 w vs2,
       visit_values t v = Some (vs1 ++ w :: vs2) /\
       length vs1 = length pre /\
       decodes_children mem max (4 * start) pre 0
                        (start + nullmask_words t topLevel) vs1 s1 /\
       if bitSet mem (4 * start) (count_nullable pre) then
         exists s',
           drop_reads (unserialize mem max c s1 false) = Some (w, s') /\
           w <> Null /\
           decodes_children mem max (4 * start) post (S (count_nullable pre)) s' vs2 s
       else
         w = Null /\
         decodes_children mem max (4 * start) post (S (count_nullable pre)) s1 vs2 s) /\
  (forall a n1 b n2 c n3 d,
     visit_order t = Some (a ++ n1 :: b ++ n2 :: c ++ n3 :: d) ->
     count_nullable a = 0%nat -> count_nullable b = 0%nat -> count_nullable c = 0%nat ->
     nullable n1 = true -> nullable n2 = true -> nullable n3 = true ->
     bitSet mem (4 * start) 0 = true ->
     bitSet mem (4 * start) 1 = false ->
     bitSet mem (4 * start) 2 = true ->
     exists vs v1 v3,
       visit_values t v = Some vs /\
       vs !! length a = Some v1 /\ v1 <> Null /\
       vs !! (length a + 1 + length b)%nat = Some Null /\
       vs !! (length a + 1 + length b + 1 + length c)%nat = Some v3 /\ v3 <> Null).
Proof.
  intros Hc E Hne. split.
  - intros pre c post Hv Hn. eapply nullable_child_law; eassumption.
  - intros a n1 b n2 c n3 d Hv Ha Hb Hcn H1 H2 H3 B0 B1 B2.
    eapply three_nullable_101; eassumption.
Qed.

Lemma nullmask_bit_per_nullable_child_witness :
  (composite demo_tuple /\
   drop_reads (unserialize demo_tuple_words 5 demo_tuple 0 true)
     = Some (demo_tuple_value, 5%nat) /\
   valueType demo_tuple_value <> EmptyType) /\
  exists vs v1 v3,
    visit_values demo_tuple demo_tuple_value = Some vs /\
    vs !! 0%nat = Some v1 /\ v1 <> Null /\
    vs !! 2%nat = Some Null /\
    vs !! 3%nat = Some v3 /\ v3 <> Null.
Proof.
  assert (H1 : composite demo_tuple) by reflexivity.
  assert (H2 : exists r, unserialize demo_tuple_words 5 demo_tuple 0 true
                         = Some (demo_tuple_value, 5%nat, r))
    by (eexists; vm_compute; reflexivity).
  assert (H3 : valueType demo_tuple_value <> EmptyType) by discriminate.
  destruct H2 as [r H2].
  split; [split; [exact H1 | split; [rewrite H2; reflexivity | exact H3]] |].
  exact (proj2 (nullmask_bit_per_nullable_child
                  demo_tuple_words 5 demo_tuple 0 true demo_tuple_value 5 r H1 H2 H3)
           [] (RamenTypeScalar U32Type true) [RamenTypeScalar U8Type false]
           (RamenTypeScalar U16Type true) [] (RamenTypeScalar StringType true) []
           eq_refl eq_refl eq_refl eq_refl eq_refl eq_refl eq_refl
           eq_refl eq_refl eq_refl).
Defined.

(** C8.  When the serialization order of a record is a permutation of its
    field indices and [unserialize] returns a value that is not an [Error],
    that value is a [Record]; the fields are decoded from the wire in
    serialization order ([vs] are the values of the fields [wire] decoded one
    after the other), each value is stored at the logical index of its field
    with the name the schema gives, and the names of the output are the names
    of the schema in declaration order. *)
Theorem record_fields_in_logical_order mem max n fields serOrder start topLevel v s r :
  serOrder ≡ₚ seq 0 (length fields) ->
  unserialize mem max (RamenTypeRecord RecordType n fields serOrder) start topLevel
    = Some (v, s, r) ->
  valueType v <> EmptyType ->
  exists fvs wire vs,
    v = Record fvs /\
    List.map fst fvs = List.map fst fields /\
    visited fields serOrder = Some wire /\
    decodes_children mem max (4 * start) (List.map snd wire) 0
      (start + nullmask_words (RamenTypeRecord RecordType n fields serOrder) topLevel)
      vs s /\
    forall i j, serOrder !! i = Some j ->
      exists name sub w,
        fields !! j = Some (name, sub) /\ vs !! i = Some w /\
        fvs !! j = Some (name, Some w).
Proof.
  intros Hp E Hne.
  destruct (record_as_place _ _ _ _ _ _ _ _ _ _ E Hne)
    as (wire & vs & Hw & Hd & Hl & ->).
  assert (Hnd : NoDup serOrder) by (rewrite Hp; apply NoDup_seq).
  destruct (visited_bound _ _ _ Hw) as [Hb Hlw].
  set (fv0 := replicate (length fields) (EmptyString, None)).
  assert (Hat : forall i j, serOrder !! i = Some j ->
            exists name sub w,
              fields !! j = Some (name, sub) /\ vs !! i = Some w /\
              place serOrder (zip (List.map fst wire) vs) fv0 !! j
                = Some (name, Some w)).
  { intros i j Hi.
    destruct (visited_lookup _ _ _ _ _ Hw Hi) as [Hwi [[name sub] Hf]].
    assert (Hlt : (i < length vs)%nat) by (rewrite Hl; eapply lookup_lt_Some, Hi).
    destruct (lookup_lt_is_Some_2 vs i Hlt) as [w Hvi].
    exists name, sub, w. split; [exact Hf |]. split; [exact Hvi |].
    apply (place_lookup serOrder _ _ i); try assumption.
    - apply lookup_zip_with_Some. exists name, w.
      split; [reflexivity |]. split; [| exact Hvi].
      change (List.map fst wire) with (fst <$> wire).
      rewrite list_lookup_fmap, Hwi, Hf. reflexivity.
    - unfold fv0. rewrite length_replicate. eapply lookup_lt_Some, Hf. }
  exists (place serOrder (zip (List.map fst wire) vs) fv0), wire, vs.
  split; [reflexivity |]. split; [| split; [exact Hw | split; [exact Hd | exact Hat]]].
  apply list_eq. intros j.
  change (List.map fst ?l) with (fst <$> l). rewrite !list_lookup_fmap.
  destruct (decide (j < length fields)%nat) as [Hj | Hj].
  - assert (Hin : j ∈ serOrder).
    { rewrite Hp. apply elem_of_seq. lia. }
    apply list_elem_of_lookup in Hin. destruct Hin as [i Hi].
    destruct (Hat i j Hi) as (name & sub & w & Hf & _ & Hpl).
    rewrite Hpl, Hf. reflexivity.
  - rewrite !lookup_ge_None_2; [reflexivity | lia |].
    rewrite place_length. unfold fv0. rewrite length_replicate. lia.
Qed.

Lemma record_fields_in_logical_order_witness :
  ([3; 1; 0; 2]%nat ≡ₚ seq 0 (length demo_record_fields) /\
   drop_reads (unserialize demo_record_words 5 demo_record 0 true)
     = Some (demo_record_value, 5%nat) /\
   valueType demo_record_value <> EmptyType) /\
  exists fvs wire vs,
    demo_record_value = Record fvs /\
    List.map fst fvs = List.map fst demo_record_fields /\
    visited demo_record_fields [3; 1; 0; 2]%nat = Some wire /\
    decodes_children demo_record_words 5 (4 * 0) (List.map snd wire) 0
      (0 + nullmask_words demo_record true) vs 5 /\
    forall i j, [3; 1; 0; 2]%nat !! i = Some j ->
      exists name sub w,
        demo_record_fields !! j = Some (name, sub) /\ vs !! i = Some w /\
        fvs !! j = Some (name, Some w).
Proof.
  assert (H1 : [3; 1; 0; 2]%nat ≡ₚ seq 0 (length demo_record_fields)).
  { simpl. symmetry.
    change [0; 1; 2; 3]%nat with ([0; 1; 2]%nat ++ [3]%nat).
    rewrite <- Permutation_cons_append. apply perm_skip.
    apply perm_swap. }
  assert (H2 : exists r, unserialize demo_record_words 5 demo_record 0 true
                         = Some (demo_record_value, 5%nat, r))
    by (eexists; vm_compute; reflexivity).
  assert (H3 : valueType demo_record_value <> EmptyType) by discriminate.
  destruct H2 as [r H2].
  split; [split; [exact H1 | split; [rewrite H2; reflexivity | exact H3]] |].
  exact (record_fields_in_logical_order demo_record_words 5 false
           demo_record_fields [3; 1; 0; 2]%nat 0 true demo_record_value 5 r
           H1 H2 H3).
Defined.

(** The float case checks for two words and consumes two, since a float is
    read as a double: the word count the design document gives for it, one,
    is not the one consumed. *)
Lemma float_consumes_two_words :
  ~ consumes_claimed_words [0; 1072693248] 2 (RamenTypeScalar FloatType false) 0 true.
Proof.
  intros H.
  specialize (H (Float 4607182418800017408) 2%nat [0; 1; 0; 1]%nat 1%nat
                eq_refl eq_refl ltac:(discriminate)).
  discriminate H.
Qed.

(** C9, amended.  A scalar that decodes consumes a word count fixed by its
    tag: 1 word for bool and the integers of at most 32 bits, 2 words for
    float (a double), the 64 bit integers, Ethernet and IPv4 addresses, 4
    words for the 128 bit integers and IPv6 addresses, and for a string one
    length word plus its byte length rounded up to whole words; and it does
    decode whenever that many words are left before the limit. *)
Theorem scalar_decode_words mem max t start topLevel w :
  scalar_words mem start (type t) = Some w ->
  (forall v s r,
     unserialize mem max t start topLevel = Some (v, s, r) ->
     valueType v <> EmptyType ->
     s = (start + w)%nat /\ valueType v = type t) /\
  (topLevel && nullable t = false -> (start + w <= max)%nat ->
   exists v r,
     unserialize mem max t start topLevel = Some (v, (start + w)%nat, r) /\
     valueType v = type t).
Proof.
  intros Hw. split.
  - intros v s r E Hne.
    destruct t as [ty n | ty n fs | ty n d sub | ty n fs so]; simpl in *;
      destruct (topLevel && n); try discriminate E;
      destruct ty; simpl in Hw; try discriminate Hw;
      injection Hw as <-;
      try (apply scalar_inv in E; [| exact Hne];
           destruct E as [-> ->]; split; reflexivity);
      repeat match type of E with
      | context [(?a <? ?b)%nat] => destruct (a <? b)%nat
      end;
      injection E as <- <- <-;
      try (contradiction Hne; reflexivity);
      (split; [lia | reflexivity]).
  - intros Htop Hroom.
    destruct t as [ty n | ty n fs | ty n d sub | ty n fs so]; simpl in *;
      rewrite Htop;
      destruct ty; simpl in Hw; try discriminate Hw;
      injection Hw as <-;
      try (rewrite scalar_ok by lia; eexists _, _; split; reflexivity);
      (destruct (Nat.ltb_spec max (start + 1)); [lia |];
       destruct (Nat.ltb_spec max (start + 1 + Z.to_nat (roundUpWords (rd mem start))));
         [lia |];
       eexists _, _; split; [f_equal; f_equal; f_equal; lia | reflexivity]).
Qed.

Lemma scalar_decode_words_witness :
  scalar_words [7; 9] 0 (type ipv4_schema) = Some 2%nat /\
  (forall v s r,
     unserialize [7; 9] 2 ipv4_schema 0 true = Some (v, s, r) ->
     valueType v <> EmptyType ->
     s = (0 + 2)%nat /\ valueType v = type ipv4_schema) /\
  (true && nullable ipv4_schema = false -> (0 + 2 <= 2)%nat ->
   exists v r,
     unserialize [7; 9] 2 ipv4_schema 0 true = Some (v, (0 + 2)%nat, r) /\
     valueType v = type ipv4_schema).
Proof.
  assert (H : scalar_words [7; 9] 0 (type ipv4_schema) = Some 2%nat) by reflexivity.
  split; [exact H |].
  exact (scalar_decode_words [7; 9] 2 ipv4_schema 0 true 2%nat H).
Defined.

(** C10.  The base class equality holds exactly when the two type tags are
    equal, whatever the payloads; the inequality is its negation; two [U32]
    values with different payloads are equal for it. *)
Theorem value_eq_compares_tags (v w : Value) :
  (Value_eq v w = true <-> valueType v = valueType w) /\
  Value_ne v w = negb (Value_eq v w) /\
  Value_eq (U32 1) (U32 2) = true.
Proof.
  unfold Value_ne, Value_eq. split; [| split; reflexivity].
  rewrite bool_decide_eq_true. split; congruence.
Qed.

(** *** Further properties of the decoder *)

(** X4.  [roundUpWords] gives the number of words that hold [sz] bytes, the
    least [w] with [sz <= 4 * w], as long as [sz + 3] fits a [size_t]; for
    the three sizes above that the sum wraps and the result is 0. *)
Theorem roundUpWords_ceiling sz :
  0 <= sz < u64_mod ->
  if sz + 3 <? u64_mod
  then 4 * (roundUpWords sz - 1) < sz <= 4 * roundUpWords sz
  else roundUpWords sz = 0.
Proof.
  intros H. unfold roundUpWords, usz, u64_mod in *.
  rewrite Z.shiftr_div_pow2 by lia. change (2 ^ 2) with 4.
  destruct (Z.ltb_spec (sz + 3) (2 ^ 64)) as [Hlt | Hge].
  - rewrite Z.mod_small by lia.
    pose proof (Z.div_mod (sz + 3) 4 ltac:(lia)).
    pose proof (Z.mod_pos_bound (sz + 3) 4 ltac:(lia)). lia.
  - replace (sz + 3) with ((sz + 3 - 2 ^ 64) + 1 * 2 ^ 64) by lia.
    rewrite Z.mod_add by lia. rewrite Z.mod_small by lia.
    apply Z.div_small. lia.
Qed.

Lemma roundUpWords_ceiling_witness :
  0 <= 5 < u64_mod /\ 4 * (roundUpWords 5 - 1) < 5 <= 4 * roundUpWords 5.
Proof.
  assert (H : 0 <= 5 < u64_mod) by (unfold u64_mod; lia).
  split; [exact H |].
  exact (roundUpWords_ceiling 5 H).
Defined.

(** X5.  The base class equality is an equivalence relation on values:
    reflexive, symmetric and transitive. *)
Theorem value_eq_equivalence :
  (forall v, Value_eq v v = true) /\
  (forall v w, Value_eq v w = Value_eq w v) /\
  (forall u v w, Value_eq u v = true -> Value_eq v w = true -> Value_eq u w = true).
Proof.
  unfold Value_eq. split; [| split].
  - intros v. apply bool_decide_eq_true. reflexivity.
  - intros v w. apply bool_decide_ext. split; congruence.
  - intros u v w. rewrite !bool_decide_eq_true. congruence.
Qed.

(** X6.  A fixed-width scalar fails exactly when fewer words are left before
    the limit than its check asks for; the [Error] it then returns leaves
    the cursor where it was, and only the words shown by the debugging loop
    have been read. *)
Theorem scalar_fails_when_short mem max t start topLevel k v s r :
  scalar_need (type t) = Some k ->
  unserialize mem max t start topLevel = Some (v, s, r) ->
  (is_error v = true <-> (max < start + k)%nat) /\
  (is_error v = true -> s = start /\ r = seq start (max - start)).
Proof.
  intros Hk E.
  destruct t as [ty n | ty n fs | ty n d sub | ty n fs so]; simpl in *;
    destruct (topLevel && n); try discriminate E;
    destruct ty; simpl in Hk; try discriminate Hk;
    injection Hk as <-;
    unfold scalar in E;
    match type of E with context [(?a <? ?b)%nat] =>
      destruct (Nat.ltb_spec a b) end;
    injection E as <- <- <-; simpl;
    (split; [split; [intros; lia || discriminate | intros; reflexivity || lia]
            | intros; (split; reflexivity) || discriminate]).
Qed.

Lemma scalar_fails_when_short_witness :
  (scalar_need (type (RamenTypeScalar U64Type false)) = Some 2%nat /\
   unserialize [7] 1 (RamenTypeScalar U64Type false) 0 true
     = Some (Error "Cannot unserialize u64", 0%nat, [0%nat])) /\
  (is_error (Error "Cannot unserialize u64") = true <-> (1 < 0 + 2)%nat) /\
  (is_error (Error "Cannot unserialize u64") = true ->
   0%nat = 0%nat /\ [0%nat] = seq 0 (1 - 0)).
Proof.
  assert (H1 : scalar_need (type (RamenTypeScalar U64Type false)) = Some 2%nat)
    by reflexivity.
  assert (H2 : unserialize [7] 1 (RamenTypeScalar U64Type false) 0 true
               = Some (Error "Cannot unserialize u64", 0%nat, [0%nat]))
    by reflexivity.
  split; [split; assumption |].
  exact (scalar_fails_when_short [7] 1 (RamenTypeScalar U64Type false) 0 true
           2%nat _ _ _ H1 H2).
Defined.

(** X7.  A string whose length word is there but whose bytes do not fit
    before the limit fails after the length word has been consumed: the
    [Error] comes with the cursor one word further, and the length word is
    the only word read besides those shown by the debugging loop. *)
Theorem string_truncated_after_length mem max t start topLevel :
  type t = StringType -> topLevel && nullable t = false ->
  (start + 1 <= max)%nat ->
  (max < start + 1 + Z.to_nat (roundUpWords (rd mem start)))%nat ->
  exists msg,
    unserialize mem max t start topLevel =
      Some (Error msg, (start + 1)%nat, seq start (max - start) ++ [start]).
Proof.
  intros Ht Htop H1 H2.
  destruct t as [ty n | ty n fs | ty n d sub | ty n fs so]; simpl in *;
    subst ty; rewrite Htop;
    destruct (Nat.ltb_spec max (start + 1)); try lia;
    destruct (Nat.ltb_spec max (start + 1 + Z.to_nat (roundUpWords (rd mem start))));
    try lia; eexists; reflexivity.
Qed.

Lemma string_truncated_after_length_witness :
  (type (RamenTypeScalar StringType false) = StringType /\
   true && nullable (RamenTypeScalar StringType false) = false /\
   (0 + 1 <= 1)%nat /\
   (1 < 0 + 1 + Z.to_nat (roundUpWords (rd [9%Z] 0)))%nat) /\
  exists msg,
    unserialize [9] 1 (RamenTypeScalar StringType false) 0 true =
      Some (Error msg, (0 + 1)%nat, seq 0 (1 - 0) ++ [0%nat]).
Proof.
  assert (H1 : type (RamenTypeScalar StringType false) = StringType) by reflexivity.
  assert (H2 : true && nullable (RamenTypeScalar StringType false) = false)
    by reflexivity.
  assert (H3 : (0 + 1 <= 1)%nat) by lia.
  assert (H4 : (1 < 0 + 1 + Z.to_nat (roundUpWords (rd [9%Z] 0)))%nat)
    by (vm_compute; lia).
  split; [repeat split; assumption |].
  exact (string_truncated_after_length [9] 1 (RamenTypeScalar StringType false)
           0 true H1 H2 H3 H4).
Defined.

Lemma land_bit a k :
  0 <= k -> negb (Z.land a (Z.shiftl 1 k) =? 0) = Z.testbit a k.
Proof.
  intros Hk. destruct (Z.testbit a k) eqn:Hb.
  - apply negb_true_iff, Z.eqb_neq. intros H0.
    assert (Hc : Z.testbit (Z.land a (Z.shiftl 1 k)) k = true).
    { rewrite Z.land_spec, Hb, Z.shiftl_spec by lia. rewrite Z.sub_diag. reflexivity. }
    rewrite H0, Z.bits_0 in Hc. discriminate Hc.
  - apply negb_false_iff, Z.eqb_eq. apply Z.bits_inj'. intros m Hm.
    rewrite Z.land_spec, Z.bits_0, Z.shiftl_spec by lia.
    destruct (Z.eq_dec m k) as [-> | Hne].
    + rewrite Hb. reflexivity.
    + destruct (Z.ltb_spec m k).
      * rewrite (Z.testbit_neg_r 1) by lia. apply andb_false_r.
      * replace (m - k) with (Z.succ (m - k - 1)) by lia.
        change 1 with (Z.succ_double 0) at 1.
        rewrite Z.succ_double_spec.
        rewrite Z.testbit_odd_succ by lia. rewrite Z.bits_0. apply andb_false_r.
Qed.

Lemma byte_at_bit mem a k :
  0 <= k < 8 ->
  Z.testbit (byte_at mem a) k =
  Z.testbit (rd mem (a / 4)) (8 * Z.of_nat (a mod 4) + k).
Proof.
  intros Hk. unfold byte_at. change 255 with (Z.ones 8).
  rewrite Z.land_ones by lia. rewrite Z.mod_pow2_bits_low by lia.
  rewrite Z.shiftr_spec by lia. f_equal. lia.
Qed.

(** X8.  [bitSet] tests one bit of one word of the span: bit [null_i mod 8]
    of the byte [null_i / 8] bytes after [nullmask]; when the nullmask starts
    on the word [start], as it does in [unserialize], that is bit
    [null_i mod 32] of the word [start + null_i / 32]. *)
Theorem bitSet_tests_one_bit mem nullmask start null_i :
  bitSet mem nullmask null_i =
    Z.testbit (rd mem (bitSet_word nullmask null_i))
              (8 * Z.of_nat ((nullmask + null_i / 8) mod 4) + Z.of_nat (null_i mod 8)) /\
  bitSet mem (4 * start) null_i =
    Z.testbit (rd mem (start + null_i / 32)) (Z.of_nat (null_i mod 32)).
Proof.
  assert (G : forall nm i, bitSet mem nm i =
    Z.testbit (rd mem (bitSet_word nm i))
              (8 * Z.of_nat ((nm + i / 8) mod 4) + Z.of_nat (i mod 8))).
  { intros nm i. rewrite bitSet_byte, land_bit by lia.
    rewrite byte_at_bit; [reflexivity |].
    pose proof (Nat.mod_upper_bound i 8 ltac:(lia)). lia. }
  split; [apply G |]. rewrite G. unfold bitSet_word.
  assert (Hq : ((4 * start + null_i / 8) / 4 = start + null_i / 32)%nat).
  { change 32%nat with (8 * 4)%nat. rewrite <- Nat.Div0.div_div.
    rewrite (Nat.mul_comm 4 start), Nat.div_add_l by lia. reflexivity. }
  assert (Hr : ((4 * start + null_i / 8) mod 4 = (null_i / 8) mod 4)%nat).
  { rewrite (Nat.add_comm (4 * start)), (Nat.mul_comm 4 start).
    apply Nat.Div0.mod_add. }
  rewrite Hq, Hr. f_equal.
  change 32%nat with (8 * 4)%nat. rewrite Nat.Div0.mod_mul_r. lia.
Qed.

Section Cursor.
Variable mem : list Z.
Variable nullmask : nat.

Lemma child_forward (nullable_ : bool) dec null_i start v s k r :
  forward dec ->
  child mem nullmask nullable_ dec null_i start = Some (v, s, k, r) ->
  (start <= s)%nat.
Proof.
  intros Hf. unfold child.
  destruct nullable_; [destruct (bitSet mem nullmask null_i) |];
    try (destruct (dec start) as [[[v' s'] r'] |] eqn:Ed; simpl; intros E;
         [| discriminate E]; injection E as <- <- <- <-; eapply Hf, Ed).
  intros E. injection E as <- <- <- <-. lia.
Qed.

Lemma tuple_loop_forward fields :
  Forall (fun f => forward (snd f)) fields ->
  forall null_i start vs s r,
    tuple_loop mem nullmask fields null_i start = Some (vs, s, r) -> (start <= s)%nat.
Proof.
  induction 1 as [| [n d] fields Hd _ IH]; intros null_i start vs s r E; simpl in E.
  - injection E as <- <- <-. lia.
  - destruct (child mem nullmask n d null_i start) as [[[[v s1] k] r1] |] eqn:Ec;
      simpl in E; [| discriminate E].
    destruct (tuple_loop mem nullmask fields k s1) as [[[vs' s'] r'] |] eqn:El;
      simpl in E; [| discriminate E].
    injection E as <- <- <-.
    apply child_forward in Ec; [| exact Hd]. apply IH in El. lia.
Qed.

Lemma record_loop_forward fields :
  Forall (fun f => forward (snd (snd f))) fields ->
  forall serOrder null_i start fv fvs s r,
    record_loop mem nullmask fields serOrder null_i start fv = Some (fvs, s, r) ->
    (start <= s)%nat.
Proof.
  intros Hf. induction serOrder as [| i rest IH]; intros null_i start fv fvs s r E;
    simpl in E.
  - injection E as <- <- <-. lia.
  - destruct (fields !! i) as [[name [n d]] |] eqn:Ei; [| discriminate E].
    destruct (child mem nullmask n d null_i start) as [[[[v s1] k] r1] |] eqn:Ec;
      simpl in E; [| discriminate E].
    destruct (record_loop mem nullmask fields rest k s1 _) as [[[fv' s'] r'] |] eqn:El;
      simpl in E; [| discriminate E].
    injection E as <- <- <-.
    apply child_forward in Ec.
    + apply IH in El. lia.
    + rewrite Forall_lookup in Hf. apply (Hf _ _ Ei).
Qed.

End Cursor.

Ltac scalar_cases E :=
  unfold scalar in E;
  repeat match type of E with
         | context [(?a <? ?b)%nat] => destruct (Nat.ltb_spec a b)
         end;
  try (injection E as <- <- <-).

(** X9.  Whatever the schema and the words, the cursor that [unserialize]
    returns is never before the one it was given. *)
Theorem unserialize_cursor_forward mem max t :
  forall start topLevel v s r,
    unserialize mem max t start topLevel = Some (v, s, r) -> (start <= s)%nat.
Proof.
  induction t as [ty n | ty n fields IH | ty n dim sub IH | ty n fields serOrder IH]
    using RamenType_nested_ind; intros start topLevel v s r E.
  - simpl in E. destruct (topLevel && n); [discriminate E |].
    destruct ty; scalar_cases E; lia.
  - destruct (decide (ty = TupleType)) as [-> | Hne].
    + rewrite unserialize_tuple in E. cbv zeta in E.
      destruct (topLevel && n); [discriminate E |].
      destruct (_ <? _)%nat; [injection E as <- <- <-; lia |].
      destruct (tuple_loop _ _ _ _ _) as [[[vs s'] r'] |] eqn:El; simpl in E;
        [| discriminate E].
      injection E as <- <- <-. apply tuple_loop_forward in El; [lia |].
      unfold tuple_decoders. rewrite Forall_map. simpl.
      eapply Forall_impl; [exact IH |]. intros c Hc s0 v0 s0' r0. apply Hc.
    + simpl in E. destruct (topLevel && n); [discriminate E |].
      destruct ty; try contradiction; scalar_cases E; lia.
  - destruct (decide (ty = VecType)) as [-> | Hne].
    + rewrite unserialize_vec in E. cbv zeta in E.
      destruct (topLevel && n); [discriminate E |].
      destruct (_ <? _)%nat; [injection E as <- <- <-; lia |].
      rewrite vec_loop_tuple_loop in E.
      destruct (tuple_loop _ _ _ _ _) as [[[vs s'] r'] |] eqn:El; simpl in E;
        [| discriminate E].
      injection E as <- <- <-. apply tuple_loop_forward in El; [lia |].
      apply Forall_replicate. simpl. intros s0 v0 s0' r0. apply IH.
    + simpl in E. destruct (topLevel && n); [discriminate E |].
      destruct ty; try contradiction; scalar_cases E; lia.
  - destruct (decide (ty = RecordType)) as [-> | Hne].
    + rewrite unserialize_record in E. cbv zeta in E.
      destruct (topLevel && n); [discriminate E |].
      destruct (_ <? _)%nat; [injection E as <- <- <-; lia |].
      destruct (record_loop _ _ _ _ _ _ _) as [[[vs s'] r'] |] eqn:El; simpl in E;
        [| discriminate E].
      injection E as <- <- <-. apply record_loop_forward in El; [lia |].
      unfold record_decoders. rewrite Forall_map. simpl.
      eapply Forall_impl; [exact IH |]. intros c Hc s0 v0 s0' r0. apply Hc.
    + simpl in E. destruct (topLevel && n); [discriminate E |].
      destruct ty; try contradiction; scalar_cases E; lia.
Qed.

Lemma unserialize_cursor_forward_witness :
  (exists r, unserialize demo_tuple_words 5 demo_tuple 0 true
             = Some (demo_tuple_value, 5%nat, r)) /\
  (0 <= 5)%nat.
Proof.
  assert (H : exists r, unserialize demo_tuple_words 5 demo_tuple 0 true
                        = Some (demo_tuple_value, 5%nat, r))
    by (eexists; vm_compute; reflexivity).
  split; [exact H |]. destruct H as [r H].
  exact (unserialize_cursor_forward demo_tuple_words 5 demo_tuple 0%nat true
           demo_tuple_value 5%nat r H).
Defined.

Lemma tuple_loop_not_null mem max nullmask children :
  forall null_i start vs s r,
    tuple_loop mem nullmask (tuple_decoders mem max children) null_i start
      = Some (vs, s, r) ->
    Forall2 (fun c w => nullable c = false -> w <> Null) children vs.
Proof.
  induction children as [| c children IH]; intros null_i start vs s r E; simpl in E.
  - injection E as <- <- <-. constructor.
  - destruct (child _ _ _ _ _ _) as [[[[v s1] k] r1] |] eqn:Ec; simpl in E;
      [| discriminate E].
    destruct (tuple_loop _ _ _ _ _) as [[[vs' s'] r'] |] eqn:El; simpl in E;
      [| discriminate E].
    injection E as <- <- <-. constructor; [| eapply IH, El].
    intros Hn. unfold child in Ec. rewrite Hn in Ec.
    destruct (unserialize mem max c start false) as [[[v' s''] r''] |] eqn:Eu;
      simpl in Ec; [| discriminate Ec].
    injection Ec as <- <- <- <-. eapply unserialize_not_null, Eu.
Qed.

(** X10.  In the value decoded for a tuple, a vector or a record there is
    one value per child visited, and the value of a child that is not
    nullable is never [Null]. *)
Theorem non_nullable_child_not_null mem max t start topLevel children v s r :
  composite t -> visit_order t = Some children ->
  unserialize mem max t start topLevel = Some (v, s, r) ->
  valueType v <> EmptyType ->
  exists vs,
    visit_values t v = Some vs /\ length vs = length children /\
    forall i c w, children !! i = Some c -> vs !! i = Some w ->
      nullable c = false -> w <> Null.
Proof.
  intros Hc Hv E Hne.
  destruct (composite_as_loop _ _ _ _ _ _ _ _ _ Hc Hv E Hne) as (vs & Hvs & Hl).
  exists vs. split; [exact Hvs |]. unfold decodes_children in Hl.
  destruct (tuple_loop _ _ _ _ _) as [[[vs' s'] r'] |] eqn:El; [| discriminate Hl].
  injection Hl as -> ->. apply tuple_loop_not_null in El.
  split; [symmetry; eapply Forall2_length, El |].
  intros i c w Hi Hw. eapply Forall2_lookup_lr in El; eauto.
Qed.

Lemma non_nullable_child_not_null_witness :
  (composite demo_tuple /\
   visit_order demo_tuple = Some
     [RamenTypeScalar U32Type true; RamenTypeScalar U8Type false;
      RamenTypeScalar U16Type true; RamenTypeScalar StringType true] /\
   drop_reads (unserialize demo_tuple_words 5 demo_tuple 0 true)
     = Some (demo_tuple_value, 5%nat) /\
   valueType demo_tuple_value <> EmptyType) /\
  exists vs,
    visit_values demo_tuple demo_tuple_value = Some vs /\
    length vs = 4%nat /\
    forall i c w,
      [RamenTypeScalar U32Type true; RamenTypeScalar U8Type false;
       RamenTypeScalar U16Type true; RamenTypeScalar StringType true] !! i = Some c ->
      vs !! i = Some w -> nullable c = false -> w <> Null.
Proof.
  assert (H1 : composite demo_tuple) by reflexivity.
  assert (H2 : visit_order demo_tuple = Some
     [RamenTypeScalar U32Type true; RamenTypeScalar U8Type false;
      RamenTypeScalar U16Type true; RamenTypeScalar StringType true]) by reflexivity.
  assert (H3 : exists r, unserialize demo_tuple_words 5 demo_tuple 0 true
                         = Some (demo_tuple_value, 5%nat, r))
    by (eexists; vm_compute; reflexivity).
  assert (H4 : valueType demo_tuple_value <> EmptyType) by discriminate.
  destruct H3 as [r H3].
  split; [split; [exact H1 | split; [exact H2 | split; [rewrite H3; reflexivity | exact H4]]] |].
  exact (non_nullable_child_not_null demo_tuple_words 5 demo_tuple 0 true _
           demo_tuple_value 5 r H1 H2 H3 H4).
Defined.



Lemma count_nullable_replicate dim sub :
  count_nullable (replicate dim sub) = if nullable sub then dim else 0%nat.
Proof.
  unfold count_nullable. induction dim as [| dim IH]; simpl.
  - destruct (nullable sub); reflexivity.
  - rewrite filter_cons. destruct (decide (nullable sub = true)) as [Hd | Hd].
    + simpl. rewrite IH, Hd. reflexivity.
    + rewrite IH. destruct (nullable sub); [contradiction Hd; reflexivity | reflexivity].
Qed.

(** X12.  A vector of dimension [dim] is decoded as the tuple of [dim]
    fields of its element type is: the same words are skipped for the
    nullmask and read, the same values are decoded in the same order and the
    same cursor is returned, the result being a [Vec] where the tuple gives
    a [Tuple]. *)
Theorem vec_decodes_as_tuple mem max n dim sub start topLevel :
  unserialize mem max (RamenTypeVec VecType n dim sub) start topLevel =
  match unserialize mem max (RamenTypeTuple TupleType n (replicate dim sub))
                    start topLevel with
  | Some (v, s, r) => Some (Vec_of_Tuple v, s, r)
  | None => None
  end.
Proof.
  rewrite unserialize_vec, unserialize_tuple. cbv zeta.
  destruct (topLevel && n); [reflexivity |].
  assert (Hw : nullmask_words (RamenTypeVec VecType n dim sub) topLevel =
               nullmask_words (RamenTypeTuple TupleType n (replicate dim sub)) topLevel).
  { unfold nullmask_words, nullmaskWidth. rewrite count_nullable_replicate.
    destruct (nullable sub); reflexivity. }
  rewrite Hw. destruct (_ <? _)%nat; [reflexivity |].
  rewrite vec_loop_tuple_loop. unfold tuple_decoders.
  change (List.map ?f (replicate dim sub)) with (f <$> replicate dim sub).
  rewrite fmap_replicate.
  destruct (tuple_loop _ _ _ _ _) as [[[vs s'] r'] |]; reflexivity.
Qed.

(** *** Reads stay below the limit *)

Lemma rd_u32 mem i : words_u32 mem -> 0 <= rd mem i < u32_mod.
Proof.
  intros H. unfold rd. destruct (nth_in_or_default i mem 0) as [Hin | ->].
  - unfold words_u32 in H. rewrite List.Forall_forall in H. apply H, Hin.
  - unfold u32_mod. lia.
Qed.

Lemma roundUpWords_small sz :
  0 <= sz < u32_mod -> roundUpWords sz = (sz + 3) / 4.
Proof.
  intros H. unfold roundUpWords, usz, u64_mod, u32_mod in *.
  rewrite Z.shiftr_div_pow2 by lia. rewrite Z.mod_small by lia. reflexivity.
Qed.

Lemma seq_below (P : nat) start n :
  (n = 0 \/ start + n <= P)%nat -> Forall (fun i => (i < P)%nat) (seq start n).
Proof.
  intros H. apply Forall_forall. intros i Hi. apply elem_of_seq in Hi. lia.
Qed.

Lemma dbg_below max start : Forall (fun i => (i < max)%nat) (seq start (max - start)).
Proof. apply seq_below. lia. Qed.

Lemma count_indices {A} (P : A -> bool) (l : list A) :
  length (List.filter (fun i => match l !! i with Some a => P a | None => false end)
                      (seq 0 (length l))) = length (List.filter P l).
Proof.
  induction l as [| x l IH] using rev_ind; [reflexivity |].
  rewrite length_app. simpl. rewrite seq_app, !List.filter_app, !length_app. simpl.
  rewrite list_lookup_middle by reflexivity.
  rewrite <- IH. f_equal; [| destruct (P x); reflexivity].
  f_equal. apply List.filter_ext_in. intros i Hi. apply in_seq in Hi.
  rewrite lookup_app_l by lia. reflexivity.
Qed.

Ltac nat_div :=
  zify; rewrite ?Nat2Z.inj_div, ?Nat2Z.inj_mod in *; Z.div_mod_to_equations; lia.

Section Reads.
Variable mem : list Z.
Variable max : nat.
Variable nullmask : nat.
Variable W : nat.
Hypothesis mask_below : forall i, (i < W)%nat -> (bitSet_word nullmask i < max)%nat.

Lemma child_guarded (nullable_ : bool) dec null_i start v s k r :
  guarded max dec -> ((if nullable_ then S null_i else null_i) <= W)%nat ->
  child mem nullmask nullable_ dec null_i start = Some (v, s, k, r) ->
  Forall (fun i => (i < max)%nat) r.
Proof.
  intros Hg Hw. unfold child.
  destruct nullable_; [destruct (bitSet mem nullmask null_i) |].
  - destruct (dec start) as [[[v' s'] r'] |] eqn:Ed; simpl; intros E;
      [| discriminate E]. injection E as <- <- <- <-.
    constructor; [apply mask_below; lia | eapply Hg, Ed].
  - intros E. injection E as <- <- <- <-.
    constructor; [apply mask_below; lia | constructor].
  - destruct (dec start) as [[[v' s'] r'] |] eqn:Ed; simpl; intros E;
      [| discriminate E]. injection E as <- <- <- <-. eapply Hg, Ed.
Qed.

Lemma tuple_loop_guarded fields :
  Forall (fun f => guarded max (snd f)) fields ->
  forall null_i start vs s r,
    (null_i + count_flags fields <= W)%nat ->
    tuple_loop mem nullmask fields null_i start = Some (vs, s, r) ->
    Forall (fun i => (i < max)%nat) r.
Proof.
  induction 1 as [| [n d] fields Hd _ IH]; intros null_i start vs s r Hw E;
    simpl in E.
  - injection E as <- <- <-. constructor.
  - destruct (child mem nullmask n d null_i start) as [[[[v s1] k] r1] |] eqn:Ec;
      simpl in E; [| discriminate E].
    destruct (tuple_loop mem nullmask fields k s1) as [[[vs' s'] r'] |] eqn:El;
      simpl in E; [| discriminate E].
    injection E as <- <- <-.
    pose proof (child_null_i _ _ _ _ _ _ _ _ _ _ Ec) as Hk.
    assert (Hc : count_flags ((n, d) :: fields)
                 = ((if n then 1 else 0) + count_flags fields)%nat)
      by (unfold count_flags; simpl; destruct n; reflexivity).
    rewrite Hc in Hw. apply Forall_app. split.
    + eapply child_guarded; [exact Hd | | exact Ec]. destruct n; lia.
    + eapply IH; [| exact El]. subst k. destruct n; lia.
Qed.

Lemma record_loop_guarded fields :
  Forall (fun f => guarded max (snd (snd f))) fields ->
  forall serOrder null_i start fv fvs s r,
    (null_i + length (List.filter (flag_at fields) serOrder) <= W)%nat ->
    record_loop mem nullmask fields serOrder null_i start fv = Some (fvs, s, r) ->
    Forall (fun i => (i < max)%nat) r.
Proof.
  intros Hf. induction serOrder as [| i rest IH];
    intros null_i start fv fvs s r Hw E; simpl in E.
  - injection E as <- <- <-. constructor.
  - assert (Hc : length (List.filter (flag_at fields) (i :: rest))
                 = ((if flag_at fields i then 1 else 0)
                    + length (List.filter (flag_at fields) rest))%nat)
      by (simpl; destruct (flag_at fields i); reflexivity).
    rewrite Hc in Hw. clear Hc. unfold flag_at in Hw at 1.
    destruct (fields !! i) as [[name [n d]] |] eqn:Ei; [| discriminate E].
    simpl in Hw.
    destruct (child mem nullmask n d null_i start) as [[[[v s1] k] r1] |] eqn:Ec;
      simpl in E; [| discriminate E].
    destruct (record_loop mem nullmask fields rest k s1 _) as [[[fv' s'] r'] |] eqn:El;
      simpl in E; [| discriminate E].
    injection E as <- <- <-.
    pose proof (child_null_i _ _ _ _ _ _ _ _ _ _ Ec) as Hk.
    assert (Hd : guarded max d).
    { rewrite Forall_lookup in Hf. apply (Hf _ _ Ei). }
    apply Forall_app. split; [| apply Forall_app; split].
    + destruct n; [| constructor].
      constructor; [apply mask_below; lia | constructor].
    + eapply child_guarded; [exact Hd | | exact Ec]. destruct n; lia.
    + eapply IH; [| exact El]. subst k. destruct n; lia.
Qed.

End Reads.

Lemma serOrder_flags (fields : list (string * (bool * decoder))) serOrder :
  NoDup serOrder ->
  (length (List.filter (flag_at fields) serOrder)
   <= length (List.filter (fun f => fst (snd f)) fields))%nat.
Proof.
  intros Hnd.
  rewrite <- (count_indices (fun f => fst (snd f)) fields).
  apply submseteq_length, NoDup_submseteq.
  - clear -Hnd. induction Hnd as [| x l Hx Hnd IH]; simpl; [constructor |].
    destruct (flag_at fields x); [| exact IH].
    constructor; [| exact IH]. intros Hin. apply Hx.
    apply list_elem_of_In, List.filter_In in Hin. apply list_elem_of_In, Hin.
  - intros i Hi. apply list_elem_of_In, List.filter_In in Hi. destruct Hi as [_ Hi].
    apply list_elem_of_In, List.filter_In. split; [| exact Hi].
    apply in_seq. unfold flag_at in Hi.
    destruct (fields !! i) eqn:Ei; [| discriminate Hi].
    apply lookup_lt_Some in Ei. lia.
Qed.

Lemma record_flags mem max fields :
  length (List.filter (fun f : string * (bool * decoder) => fst (snd f))
                      (record_decoders mem max fields))
  = count_nullable (List.map snd fields).
Proof.
  unfold count_nullable, record_decoders.
  induction fields as [| [name t] fields IH]; [reflexivity |]. simpl.
  rewrite filter_cons. destruct (decide (nullable t = true)) as [Hd | Hd].
  - rewrite Hd. simpl. f_equal. exact IH.
  - destruct (nullable t); [contradiction Hd; reflexivity | exact IH].
Qed.

Lemma tuple_mask_below start max W i :
  Z.of_nat W < u32_mod ->
  (start + Z.to_nat (roundUpWords (Z.of_nat W)) <= max)%nat ->
  (i < W)%nat -> (bitSet_word (4 * start) i < max)%nat.
Proof.
  intros HW Hs Hi. rewrite roundUpWords_small in Hs by lia.
  unfold bitSet_word.
  replace ((4 * start + i / 8) / 4)%nat with (start + i / 32)%nat.
  - enough (i / 32 < Z.to_nat ((Z.of_nat W + 3) / 4))%nat by lia.
    nat_div.
  - change 32%nat with (8 * 4)%nat. rewrite <- Nat.Div0.div_div.
    rewrite (Nat.mul_comm 4 start), Nat.div_add_l by lia. reflexivity.
Qed.

Lemma record_mask_below start max W i :
  Z.of_nat W < u32_mod ->
  (start + Z.to_nat (roundUpWords (usz (Z.of_nat W + 7) / 8)) <= max)%nat ->
  (i < W)%nat -> (bitSet_word (4 * start) i < max)%nat.
Proof.
  intros HW Hs Hi.
  assert (Hu : usz (Z.of_nat W + 7) = Z.of_nat W + 7).
  { unfold usz, u64_mod, u32_mod in *. apply Z.mod_small. lia. }
  rewrite Hu in Hs.
  rewrite roundUpWords_small in Hs
    by (unfold u32_mod in *; Z.div_mod_to_equations; lia).
  unfold bitSet_word.
  replace ((4 * start + i / 8) / 4)%nat with (start + i / 32)%nat.
  - enough (i / 32 < Z.to_nat (((Z.of_nat W + 7) / 8 + 3) / 4))%nat by lia.
    nat_div.
  - change 32%nat with (8 * 4)%nat. rewrite <- Nat.Div0.div_div.
    rewrite (Nat.mul_comm 4 start), Nat.div_add_l by lia. reflexivity.
Qed.

Lemma string_reads_below mem max start :
  words_u32 mem ->
  (start + 1 + Z.to_nat (roundUpWords (rd mem start)) <= max)%nat ->
  Forall (fun i => (i < max)%nat)
         (string_reads (start + 1) (Z.to_nat (rd mem start))).
Proof.
  intros Hm Hs. pose proof (rd_u32 mem start Hm) as Hr.
  rewrite roundUpWords_small in Hs by exact Hr.
  unfold string_reads. apply Forall_forall. intros x Hx.
  apply list_elem_of_In, in_map_iff in Hx. destruct Hx as (i & <- & Hi).
  apply in_seq in Hi.
  enough (i / 4 < Z.to_nat ((rd mem start + 3) / 4))%nat by lia.
  nat_div.
Qed.

Ltac list_below :=
  repeat (apply List.Forall_cons; [lia |]); apply List.Forall_nil.

Ltac scalar_reads E :=
  unfold scalar in E;
  match type of E with
  | context [(?a <? ?b)%nat] => destruct (Nat.ltb_spec a b)
  end;
  injection E as <- <- <-;
  [apply dbg_below | apply Forall_app; split; [apply dbg_below | list_below]].

Ltac flat_reads E Hm :=
  match type of E with
  | Some _ = Some _ => injection E as <- <- <-; apply dbg_below
  | context [scalar] => scalar_reads E
  | _ =>
      match type of E with
      | context [(?a <? ?b)%nat] => destruct (Nat.ltb_spec a b)
      end; [injection E as <- <- <-; apply dbg_below |];
      match type of E with
      | context [(?a <? ?b)%nat] => destruct (Nat.ltb_spec a b)
      end;
      injection E as <- <- <-;
      [apply Forall_app; split; [apply dbg_below | list_below]
      | apply Forall_app; split; [apply dbg_below |];
        apply List.Forall_cons; [lia | apply string_reads_below; [exact Hm | assumption]]]
  end.

(** X13.  When the words are 32 bit words and no node of the schema carries
    the IPv4 tag (every node having fewer than 2^32 children and no record
    naming a field twice in its serialization order), [unserialize] reads no
    word at or beyond the limit: not for a scalar, not for a string, not for a
    nullmask bit, and not after a child has failed.  The nullmask width is
    the number of nullable children. *)
Theorem reads_below_limit mem max t :
  words_u32 mem -> ipv4_free t = true ->
  forall start topLevel v s r,
    unserialize mem max t start topLevel = Some (v, s, r) ->
    Forall (fun i => (i < max)%nat) r.
Proof.
  intros Hm.
  induction t as [ty n | ty n fields IH | ty n dim sub IH | ty n fields serOrder IH]
    using RamenType_nested_ind; intros Hsafe start topLevel v s r E.
  - simpl in E, Hsafe. destruct (topLevel && n); [discriminate E |].
    destruct ty; try discriminate Hsafe; flat_reads E Hm.
  - simpl in Hsafe. apply andb_prop in Hsafe. destruct Hsafe as [Htag Hsafe].
    apply andb_prop in Hsafe. destruct Hsafe as [Hlen Hch].
    destruct (decide (ty = TupleType)) as [-> | Hne].
    + rewrite unserialize_tuple in E. cbv zeta in E.
      destruct (topLevel && n); [discriminate E |].
      destruct (Nat.ltb_spec max (start + nullmask_words
                  (RamenTypeTuple TupleType n fields) topLevel)) as [Hlt | Hge];
        [injection E as <- <- <-; apply dbg_below |].
      destruct (tuple_loop _ _ _ _ _) as [[[vs s'] r'] |] eqn:El; simpl in E;
        [| discriminate E].
      injection E as <- <- <-. apply Forall_app. split; [apply dbg_below |].
      assert (Hcnt : (count_nullable fields <= length fields)%nat)
        by (unfold count_nullable; apply length_filter).
      eapply (tuple_loop_guarded mem max (4 * start) (count_nullable fields));
        [| | | exact El].
      * intros i Hi. eapply tuple_mask_below; [| exact Hge | exact Hi]. lia.
      * unfold tuple_decoders. rewrite Forall_map. simpl.
        rewrite forallb_forall in Hch. rewrite Forall_forall in IH.
        apply Forall_forall. intros c Hc s0 v0 s0' r0.
        apply IH; [exact Hc |]. apply Hch, list_elem_of_In, Hc.
      * rewrite count_flags_decoders. lia.
    + simpl in E. destruct (topLevel && n); [discriminate E |].
      destruct ty; try contradiction; try discriminate Htag; flat_reads E Hm.
  - simpl in Hsafe. apply andb_prop in Hsafe. destruct Hsafe as [Htag Hsafe].
    apply andb_prop in Hsafe. destruct Hsafe as [Hlen Hch].
    destruct (decide (ty = VecType)) as [-> | Hne].
    + rewrite unserialize_vec in E. cbv zeta in E.
      destruct (topLevel && n); [discriminate E |].
      destruct (Nat.ltb_spec max (start + nullmask_words
                  (RamenTypeVec VecType n dim sub) topLevel)) as [Hlt | Hge];
        [injection E as <- <- <-; apply dbg_below |].
      rewrite vec_loop_tuple_loop in E.
      destruct (tuple_loop _ _ _ _ _) as [[[vs s'] r'] |] eqn:El; simpl in E;
        [| discriminate E].
      injection E as <- <- <-. apply Forall_app. split; [apply dbg_below |].
      eapply (tuple_loop_guarded mem max (4 * start)
                (if nullable sub then dim else 0%nat)); [| | | exact El].
      * intros i Hi. unfold nullmask_words, nullmaskWidth in Hge.
        eapply tuple_mask_below; [| | exact Hi].
        -- destruct (nullable sub); unfold u32_mod in *; lia.
        -- destruct (nullable sub); exact Hge.
      * apply Forall_replicate. simpl. intros s0 v0 s0' r0. apply IH, Hch.
      * unfold count_flags. clear. induction dim as [| dim IHd]; simpl.
        -- destruct (nullable sub); lia.
        -- destruct (nullable sub); simpl in *; lia.
    + simpl in E. destruct (topLevel && n); [discriminate E |].
      destruct ty; try contradiction; try discriminate Htag; flat_reads E Hm.
  - simpl in Hsafe. apply andb_prop in Hsafe. destruct Hsafe as [Htag Hsafe].
    apply andb_prop in Hsafe. destruct Hsafe as [Hsafe Hnd].
    apply andb_prop in Hsafe. destruct Hsafe as [Hlen Hch].
    apply bool_decide_eq_true in Hnd.
    destruct (decide (ty = RecordType)) as [-> | Hne].
    + rewrite unserialize_record in E. cbv zeta in E.
      destruct (topLevel && n); [discriminate E |].
      destruct (Nat.ltb_spec max (start + nullmask_words
                  (RamenTypeRecord RecordType n fields serOrder) topLevel))
        as [Hlt | Hge];
        [injection E as <- <- <-; apply dbg_below |].
      destruct (record_loop _ _ _ _ _ _ _) as [[[vs s'] r'] |] eqn:El; simpl in E;
        [| discriminate E].
      injection E as <- <- <-. apply Forall_app. split; [apply dbg_below |].
      assert (Hcnt : (count_nullable (List.map snd fields) <= length fields)%nat).
      { unfold count_nullable. etransitivity; [apply length_filter |].
        rewrite length_map. lia. }
      eapply (record_loop_guarded mem max (4 * start)
                (count_nullable (List.map snd fields))); [| | | exact El].
      * intros i Hi. eapply record_mask_below; [| exact Hge | exact Hi]. lia.
      * unfold record_decoders. rewrite Forall_map. simpl.
        rewrite forallb_forall in Hch. rewrite Forall_forall in IH.
        apply Forall_forall. intros c Hc s0 v0 s0' r0.
        apply IH; [exact Hc |]. apply Hch, list_elem_of_In, Hc.
      * rewrite <- record_flags with (mem := mem) (max := max).
        simpl. apply serOrder_flags, Hnd.
    + simpl in E. destruct (topLevel && n); [discriminate E |].
      destruct ty; try contradiction; try discriminate Htag; flat_reads E Hm.
Qed.

Lemma reads_below_limit_witness :
  (words_u32 demo_record_words /\ ipv4_free demo_record = true) /\
  exists r,
    unserialize demo_record_words 5 demo_record 0 true
      = Some (demo_record_value, 5%nat, r) /\
    Forall (fun i => (i < 5)%nat) r.
Proof.
  assert (H1 : words_u32 demo_record_words).
  { unfold words_u32, demo_record_words, u32_mod.
    repeat (apply List.Forall_cons; [lia |]). apply List.Forall_nil. }
  assert (H2 : ipv4_free demo_record = true) by (vm_compute; reflexivity).
  assert (H3 : exists r, unserialize demo_record_words 5 demo_record 0 true
                         = Some (demo_record_value, 5%nat, r))
    by (eexists; vm_compute; reflexivity).
  split; [split; assumption |]. destruct H3 as [r H3].
  exists r. split; [exact H3 |].
  exact (reads_below_limit demo_record_words 5 demo_record H1 H2 0%nat true
           demo_record_value 5%nat r H3).
Defined.

End SerFacts.

Module GraphFacts.
Import Graph.

(** *** Reordering the children of an item *)

Lemma reorder_from_fst {C} x step (items : list (GraphItem C)) : forall i,
  fst (reorder_from x step i items) =
  imap (fun k item => if row item =? Z.of_nat (i + k) then item
                      else moved (Z.of_nat (i + k)) (x, Z.of_nat (i + k) * step) item)
       items.
Proof.
  induction items as [| item rest IH]; intros i; simpl; [reflexivity |].
  specialize (IH (S i)).
  destruct (reorder_from x step (S i) rest) as [rest' emitted_]. simpl in IH.
  rewrite Nat.add_0_r.
  assert (E : rest' = imap ((fun k item0 =>
                if row item0 =? Z.of_nat (i + k) then item0
                else moved (Z.of_nat (i + k)) (x, Z.of_nat (i + k) * step) item0) ∘ S)
              rest).
  { rewrite IH. apply imap_ext. intros k y _. simpl.
    replace (i + S k)%nat with (S (i + k)) by lia. reflexivity. }
  destruct (row item =? Z.of_nat i); simpl; f_equal; exact E.
Qed.

Lemma reorder_from_snd {C} x step (items : list (GraphItem C)) : forall i,
  snd (reorder_from x step i items) = misplaced i items.
Proof.
  induction items as [| item rest IH]; intros i; simpl; [reflexivity |].
  specialize (IH (S i)).
  destruct (reorder_from x step (S i) rest) as [rest' emitted_]. simpl in IH.
  destruct (row item =? Z.of_nat i); simpl; rewrite IH; reflexivity.
Qed.

Lemma reorder_from_fixed {C} x step (items : list (GraphItem C)) : forall i,
  (forall k item, items !! k = Some item -> row item = Z.of_nat (i + k)) ->
  reorder_from x step i items = (items, []).
Proof.
  induction items as [| item rest IH]; intros i H; simpl; [reflexivity |].
  rewrite (IH (S i)).
  - pose proof (H 0%nat item eq_refl) as H0. rewrite Nat.add_0_r in H0.
    rewrite H0, Z.eqb_refl. reflexivity.
  - intros k y Hk. rewrite (H (S k) y Hk). f_equal. lia.
Qed.

Lemma reorder_from_reordered {C} x step (items : list (GraphItem C)) :
  reordered x step items (reorder_from x step 0 items).
Proof.
  unfold reordered. rewrite reorder_from_fst, reorder_from_snd. simpl.
  split; [| split; [| split; [| split; [| split; [| reflexivity]]]]].
  - intros i item Hi. rewrite list_lookup_imap in Hi.
    destruct (items !! i) as [item0 |]; [| discriminate Hi]. simpl in Hi.
    injection Hi as <-. destruct (Z.eqb_spec (row item0) (Z.of_nat i));
      [assumption | reflexivity].
  - intros i item0 item H0 Hi. rewrite list_lookup_imap, H0 in Hi. simpl in Hi.
    injection Hi as <-. reflexivity.
  - apply list_eq. intros i.
    change (List.map ?f ?l) with (f <$> l).
    rewrite !list_lookup_fmap, list_lookup_imap.
    destruct (items !! i) as [item0 |]; [| reflexivity]. simpl.
    destruct (row item0 =? Z.of_nat i); reflexivity.
  - apply list_eq. intros i.
    change (List.map ?f ?l) with (f <$> l).
    rewrite !list_lookup_fmap, list_lookup_imap.
    destruct (items !! i) as [item0 |]; [| reflexivity]. simpl.
    destruct (row item0 =? Z.of_nat i); reflexivity.
  - apply list_eq. intros i.
    change (List.map ?f ?l) with (f <$> l).
    rewrite !list_lookup_fmap, list_lookup_imap.
    destruct (items !! i) as [item0 |]; [| reflexivity]. simpl.
    destruct (row item0 =? Z.of_nat i); reflexivity.
Qed.

Lemma reorder_from_twice {C} x step (items : list (GraphItem C)) :
  reorder_from x step 0 (fst (reorder_from x step 0 items))
  = (fst (reorder_from x step 0 items), []).
Proof.
  apply reorder_from_fixed. intros k item Hk.
  destruct (reorder_from_reordered x step items) as [Hrow _].
  apply (Hrow k item Hk).
Qed.

(** X14.  [GraphModel::reorder] and [ProgramItem::reorder] leave every item
    with its index as row: an item whose row was already its index is
    untouched, any other gets its index as row and the position of that
    index (130 apart for sites, at 30 and 30 apart for functions), for which
    one [positionChanged] is emitted, in index order; the items stay in
    place with their names and children.  Reordering a second time changes
    nothing and emits nothing. *)
Theorem reorder_rows_are_indices (sites_ : list SiteItem)
    (functions_ : list FunctionItem) :
  reordered 0 130 sites_ (GraphModel_reorder sites_) /\
  GraphModel_reorder (fst (GraphModel_reorder sites_))
    = (fst (GraphModel_reorder sites_), []) /\
  reordered 30 30 functions_ (ProgramItem_reorder functions_) /\
  ProgramItem_reorder (fst (ProgramItem_reorder functions_))
    = (fst (ProgramItem_reorder functions_), []).
Proof.
  unfold GraphModel_reorder, ProgramItem_reorder.
  split; [apply reorder_from_reordered |].
  split; [apply reorder_from_twice |].
  split; [apply reorder_from_reordered | apply reorder_from_twice].
Qed.

(** *** Looking a function up by its names *)

Lemma find_function_first functions_ f fi :
  find_function functions_ f = Some fi <->
  exists before after, first_named functions_ f before fi after.
Proof.
  unfold first_named. induction functions_ as [| x rest IH]; simpl.
  - split; [discriminate |]. intros (b & a & E & _). destruct b; discriminate E.
  - destruct (String.eqb_spec (name x) f) as [Hx | Hx].
    + split.
      * intros E. injection E as <-. exists [], rest. repeat split; auto.
      * intros (b & a & E & Hn & Hb). destruct b as [| y b].
        -- injection E as <- _. reflexivity.
        -- exfalso. injection E as <- _. apply Forall_cons in Hb. tauto.
    + rewrite IH. split.
      * intros (b & a & -> & Hn & Hb). exists (x :: b), a.
        split; [reflexivity |]. split; [exact Hn |]. constructor; assumption.
      * intros (b & a & E & Hn & Hb). destruct b as [| y b].
        -- injection E as <- _. contradiction.
        -- injection E as <- ->. apply Forall_cons in Hb.
           exists b, a. tauto.
Qed.

Lemma find_program_first programs_ p f fi :
  find_program programs_ p f = Some fi <->
  exists before programItem after,
    first_named programs_ p before programItem after /\
    find_function (functions programItem) f = Some fi.
Proof.
  unfold first_named. induction programs_ as [| x rest IH]; simpl.
  - split; [discriminate |]. intros (b & y & a & (E & _) & _).
    destruct b; discriminate E.
  - destruct (String.eqb_spec (name x) p) as [Hx | Hx].
    + split.
      * intros E. exists [], x, rest. repeat split; auto.
      * intros (b & y & a & (E & Hn & Hb) & Hf). destruct b as [| z b].
        -- injection E as <- _. exact Hf.
        -- exfalso. injection E as <- _. apply Forall_cons in Hb. tauto.
    + rewrite IH. split.
      * intros (b & y & a & (-> & Hn & Hb) & Hf). exists (x :: b), y, a.
        split; [| exact Hf].
        split; [reflexivity |]. split; [exact Hn |]. constructor; assumption.
      * intros (b & y & a & (E & Hn & Hb) & Hf). destruct b as [| z b].
        -- injection E as <- _. contradiction.
        -- injection E as <- ->. apply Forall_cons in Hb.
           exists b, y, a. tauto.
Qed.

Lemma find_site_first sites_ s p f fi :
  find sites_ s p f = Some fi <->
  exists before siteItem after,
    first_named sites_ s before siteItem after /\
    find_program (programs siteItem) p f = Some fi.
Proof.
  unfold first_named. induction sites_ as [| x rest IH]; simpl.
  - split; [discriminate |]. intros (b & y & a & (E & _) & _).
    destruct b; discriminate E.
  - destruct (String.eqb_spec (name x) s) as [Hx | Hx].
    + split.
      * intros E. exists [], x, rest. repeat split; auto.
      * intros (b & y & a & (E & Hn & Hb) & Hf). destruct b as [| z b].
        -- injection E as <- _. exact Hf.
        -- exfalso. injection E as <- _. apply Forall_cons in Hb. tauto.
    + rewrite IH. split.
      * intros (b & y & a & (-> & Hn & Hb) & Hf). exists (x :: b), y, a.
        split; [| exact Hf].
        split; [reflexivity |]. split; [exact Hn |]. constructor; assumption.
      * intros (b & y & a & (E & Hn & Hb) & Hf). destruct b as [| z b].
        -- injection E as <- _. contradiction.
        -- injection E as <- ->. apply Forall_cons in Hb.
           exists b, y, a. tauto.
Qed.

(** X15.  [GraphModel::find] returns a function exactly when it is the first
    function of that name in the first program of that name of the first
    site of that name.  It gives up at the first site (and the first program)
    of the name asked for: when that one lacks the program (the function),
    the result is null whatever the later sites (programs) of the same name
    hold, as with the two sites named [s] of which only the second has the
    program [p]. *)
Theorem find_first_match sites_ s p f :
  (forall fi,
     find sites_ s p f = Some fi <->
     exists b1 siteItem a1 b2 programItem a2 b3 a3,
       first_named sites_ s b1 siteItem a1 /\
       first_named (programs siteItem) p b2 programItem a2 /\
       first_named (functions programItem) f b3 fi a3) /\
  (forall b1 siteItem a1,
     first_named sites_ s b1 siteItem a1 ->
     Forall (fun programItem => name programItem <> p) (programs siteItem) ->
     find sites_ s p f = None) /\
  find shadowed_sites "s" "p" "f" = None.
Proof.
  split; [| split; [| reflexivity]].
  - intros fi. rewrite find_site_first. split.
    + intros (b1 & S & a1 & H1 & Hp). apply find_program_first in Hp.
      destruct Hp as (b2 & P & a2 & H2 & Hf). apply find_function_first in Hf.
      destruct Hf as (b3 & a3 & H3). exists b1, S, a1, b2, P, a2, b3, a3. auto.
    + intros (b1 & S & a1 & b2 & P & a2 & b3 & a3 & H1 & H2 & H3).
      exists b1, S, a1. split; [exact H1 |]. apply find_program_first.
      exists b2, P, a2. split; [exact H2 |]. apply find_function_first.
      exists b3, a3. exact H3.
  - intros b1 S a1 H1 Hno.
    destruct (find sites_ s p f) as [fi |] eqn:E; [| reflexivity]. exfalso.
    apply find_site_first in E. destruct E as (b1' & S' & a1' & H1' & Hp).
    assert (S' = S).
    { destruct H1 as (E1 & N1 & F1), H1' as (E1' & N1' & F1'). clear Hp Hno.
      revert b1' E1' F1'. subst sites_.
      induction b1 as [| y b1 IH]; intros [| y' b1'] E1' F1'; simpl in E1'.
      - injection E1' as ->. reflexivity.
      - injection E1' as -> _. apply Forall_cons in F1'. tauto.
      - injection E1' as -> _. apply Forall_cons in F1. tauto.
      - injection E1' as -> E1'. apply Forall_cons in F1, F1'.
        apply (IH (proj2 F1) b1' E1' (proj2 F1')). }
    subst S'. apply find_program_first in Hp.
    destruct Hp as (b2 & P & a2 & (E2 & N2 & _) & _).
    rewrite E2 in Hno. apply Forall_app in Hno. destruct Hno as [_ Hno].
    apply Forall_cons in Hno. tauto.
Qed.

(** *** Creating the site of a key *)

Lemma named_none {C} (items : list (GraphItem C)) n :
  named items n = None <-> n ∉ List.map name items.
Proof.
  induction items as [| item rest IH]; simpl.
  - split; [intros _; apply not_elem_of_nil | reflexivity].
  - rewrite not_elem_of_cons.
    destruct (String.eqb_spec (name item) n) as [E | E].
    + split; [discriminate | intros [H _]; congruence].
    + rewrite IH. split; [intros H; split; [congruence | exact H] | tauto].
Qed.

Lemma named_some {C} (items : list (GraphItem C)) n item :
  named items n = Some item -> item ∈ items /\ name item = n.
Proof.
  induction items as [| x rest IH]; simpl; [discriminate |].
  destruct (String.eqb_spec (name x) n) as [E | E].
  - intros H. injection H as <-. split; [left | exact E].
  - intros H. destruct (IH H) as [Hin Hn]. split; [right; exact Hin | exact Hn].
Qed.

Lemma misplaced_in_place {C} (l : list (GraphItem C)) (new : GraphItem C) : forall i0,
  (forall i item, l !! i = Some item -> row item = Z.of_nat (i0 + i)) ->
  misplaced i0 (l ++ [new]) =
  if row new =? Z.of_nat (i0 + length l) then []
  else [positionChanged (Z.of_nat (i0 + length l)) (addr new)].
Proof.
  induction l as [| y l IH]; intros i0 H; simpl.
  - rewrite Nat.add_0_r. destruct (_ =? _); reflexivity.
  - pose proof (H 0%nat y eq_refl) as H0. rewrite Nat.add_0_r in H0.
    rewrite H0, Z.eqb_refl. rewrite IH.
    + replace (S i0 + length l)%nat with (i0 + S (length l))%nat by lia.
      reflexivity.
    + intros i item Hi. rewrite (H (S i) item Hi). f_equal. lia.
Qed.

Lemma updateKey_site_new sites_ pk_site new_addr new_row new_pos :
  named sites_ pk_site = None ->
  updateKey_site sites_ pk_site new_addr new_row new_pos =
  (fst (reorder_from 0 130 0 (sites_ ++ [mk_item new_addr pk_site new_row new_pos []])),
   new_addr,
   snd (reorder_from 0 130 0 (sites_ ++ [mk_item new_addr pk_site new_row new_pos []]))).
Proof.
  intros En. unfold updateKey_site, GraphModel_reorder. rewrite En.
  destruct (reorder_from 0 130 0 _). reflexivity.
Qed.

(** X20.  The block of [GraphModel::updateKey] that finds or creates the site
    of a key keeps the sites in order: when the rows are the indices and no
    two sites have the same name, this is still so afterwards, a site of the
    name asked for is there and [siteItem] points to it, and the sites that
    were there are untouched.  A site that exists is not created again and
    nothing is emitted for it; a new one goes last, with at most one
    [positionChanged]. *)
Theorem updateKey_site_in_order sites_ pk_site new_addr new_row new_pos :
  in_order sites_ ->
  in_order (updateKey_site sites_ pk_site new_addr new_row new_pos).1.1 /\
  (exists siteItem,
     siteItem ∈ (updateKey_site sites_ pk_site new_addr new_row new_pos).1.1 /\
     name siteItem = pk_site /\
     addr siteItem = (updateKey_site sites_ pk_site new_addr new_row new_pos).1.2) /\
  sites_ `prefix_of` (updateKey_site sites_ pk_site new_addr new_row new_pos).1.1 /\
  (length (updateKey_site sites_ pk_site new_addr new_row new_pos).2 <= 1)%nat /\
  (pk_site ∈ List.map name sites_ ->
   updateKey_site sites_ pk_site new_addr new_row new_pos
   = (sites_, (updateKey_site sites_ pk_site new_addr new_row new_pos).1.2, [])) /\
  (pk_site ∉ List.map name sites_ ->
   length (updateKey_site sites_ pk_site new_addr new_row new_pos).1.1
   = S (length sites_)).
Proof.
  intros [Hrow Hnd].
  destruct (named sites_ pk_site) as [siteItem |] eqn:En.
  - unfold updateKey_site. rewrite En. simpl.
    destruct (named_some _ _ _ En) as [Hin Hn].
    split; [split; assumption |].
    split; [exists siteItem; auto |].
    split; [reflexivity |]. split; [lia |]. split; [reflexivity |].
    intros Hno. apply named_none in Hno. congruence.
  - rewrite (updateKey_site_new _ _ _ _ _ En). simpl.
    apply named_none in En.
    unfold SiteItem in *.
    set (new := mk_item new_addr pk_site new_row new_pos []).
    pose proof (reorder_from_fst 0 130 (sites_ ++ [new]) 0) as Hf.
    pose proof (reorder_from_snd 0 130 (sites_ ++ [new]) 0) as Hs.
    destruct (reorder_from_reordered 0 130 (sites_ ++ [new]))
      as (Hr & _ & Ha & Hnm & _).
    set (sites' := fst (reorder_from 0 130 0 (sites_ ++ [new]))) in *.
    set (emitted_ := snd (reorder_from 0 130 0 (sites_ ++ [new]))) in *.
    clearbody sites' emitted_. simpl in Hf.
    assert (Hsame : forall i, (i < length sites_)%nat -> sites' !! i = sites_ !! i).
    { intros i Hi. rewrite Hf, list_lookup_imap, lookup_app_l by exact Hi.
      destruct (sites_ !! i) as [x |] eqn:Ex; [| reflexivity]. simpl.
      rewrite (Hrow i x Ex), Z.eqb_refl. reflexivity. }
    assert (Hlen : length sites' = S (length sites_)).
    { rewrite Hf, length_imap, length_app. simpl. lia. }
    split; [split; [exact Hr |] |].
    { rewrite Hnm, List.map_app. simpl. apply NoDup_app.
      split; [exact Hnd |]. split; [| apply NoDup_singleton].
      intros n Hn Hn'. apply list_elem_of_singleton in Hn'. subst n. contradiction. }
    split.
    { destruct (lookup_lt_is_Some_2 sites' (length sites_) ltac:(lia)) as [x Hx].
      exists x. split; [eapply list_elem_of_lookup_2, Hx |].
      assert (Hx' := Hx). rewrite Hf, list_lookup_imap in Hx'.
      rewrite list_lookup_middle in Hx' by reflexivity. simpl in Hx'.
      injection Hx' as <-. destruct (_ =? _); split; reflexivity. }
    split.
    { exists (drop (length sites_) sites'). rewrite <- (take_drop (length sites_) sites') at 1.
      f_equal. apply list_eq. intros i.
      destruct (decide (i < length sites_)%nat) as [Hi | Hi].
      - rewrite lookup_take_lt by exact Hi. apply Hsame, Hi.
      - rewrite lookup_take_ge by lia. symmetry. apply lookup_ge_None_2. lia. }
    split.
    { rewrite Hs, (misplaced_in_place sites_ new 0) by exact Hrow.
      destruct (_ =? _); simpl; lia. }
    split; [intros Hin; contradiction | intros _; exact Hlen].
Qed.

Lemma updateKey_site_in_order_witness :
  in_order one_site /\
  in_order with_new_site.1.1 /\
  one_site `prefix_of` with_new_site.1.1 /\
  (length with_new_site.2 <= 1)%nat.
Proof.
  assert (H : in_order one_site).
  { split.
    - intros [| i] item Hi; [injection Hi as <-; reflexivity | discriminate Hi].
    - apply NoDup_singleton. }
  split; [exact H |].
  destruct (updateKey_site_in_order one_site "t" 7 9 (0, 0) H)
    as (H1 & _ & H3 & H4 & _).
  split; [exact H1 |]. split; [exact H3 | exact H4].
Defined.

(** *** Parents that are waited for *)

Lemma parents_of_add parent c g c' :
  parents_of (addFunctionParent parent c g) c' =
  if Nat.eqb c c' then parents_of g c' ++ [parent] else parents_of g c'.
Proof.
  unfold parents_of, addFunctionParent. simpl.
  destruct (Nat.eqb_spec c c') as [-> | Hne].
  - rewrite lookup_insert_eq. reflexivity.
  - rewrite lookup_insert_ne by exact Hne. reflexivity.
Qed.

Lemma retry_loop_spec pending : forall g,
  sites (retry_loop pending g) = sites g /\
  pendingAddParents (retry_loop pending g)
    = List.filter (fun it => negb (resolvable g it)) pending /\
  (forall c, parents_of (retry_loop pending g) c
             = parents_of g c ++ resolved_for (sites g) c pending) /\
  emitted (retry_loop pending g) = emitted g ++ resolved_signals (sites g) pending.
Proof.
  induction pending as [| it rest IH]; intros g; simpl.
  - split; [reflexivity |]. split; [reflexivity |].
    split; [intros c; rewrite app_nil_r; reflexivity | rewrite app_nil_r; reflexivity].
  - unfold resolvable at 1.
    destruct (find (sites g) (site it) (program it) (function it)) as [par |] eqn:Ef;
      simpl.
    + destruct (IH (addFunctionParent (addr par) (child it) g))
        as (Hs & Hp & Hpar & He).
      split; [exact Hs |]. split; [exact Hp |]. split.
      * intros c. rewrite Hpar, parents_of_add. simpl.
        destruct (Nat.eqb (child it) c); [rewrite <- app_assoc |]; reflexivity.
      * rewrite He. simpl. rewrite <- app_assoc. reflexivity.
    + destruct (IH g) as (Hs & Hp & Hpar & He).
      split; [exact Hs |]. split; [rewrite Hp; reflexivity |].
      split; [exact Hpar | exact He].
Qed.

Lemma retry_loop_none pending : forall g,
  Forall (fun it => resolvable g it = false) pending ->
  retry_loop pending g = mk_model (sites g) (parents g) pending (emitted g).
Proof.
  induction pending as [| it rest IH]; intros g H; simpl; [reflexivity |].
  apply Forall_cons in H. destruct H as [Hit Hrest].
  unfold resolvable in Hit.
  destruct (find (sites g) (site it) (program it) (function it)); [discriminate Hit |].
  rewrite (IH g Hrest). reflexivity.
Qed.

Lemma retry_loop_app pending : forall g it par,
  Forall (fun it => resolvable g it = false) pending ->
  find (sites g) (site it) (program it) (function it) = Some par ->
  retry_loop (pending ++ [it]) g =
  mk_model (sites g)
           (<[child it := parents_of g (child it) ++ [addr par]]> (parents g))
           pending
           (emitted g ++ [relationAdded (addr par) (child it)]).
Proof.
  induction pending as [| it0 rest IH]; intros g it par H Hf; simpl.
  - rewrite Hf. reflexivity.
  - apply Forall_cons in H. destruct H as [Hit Hrest].
    unfold resolvable in Hit.
    destruct (find (sites g) (site it0) (program it0) (function it0));
      [discriminate Hit |].
    rewrite (IH g it par Hrest Hf). reflexivity.
Qed.

(** X16.  [GraphModel::retryAddParents] connects, in the order of the list,
    every pending entry whose parent [find] locates: the parent is appended
    to the parents of the entry's child and one [relationAdded] is emitted
    for it, the other entries stay pending in their order.  Afterwards no
    pending entry can be resolved, so that retrying at once changes
    nothing. *)
Theorem retryAddParents_resolves g :
  sites (retryAddParents g) = sites g /\
  pendingAddParents (retryAddParents g)
    = List.filter (fun it => negb (resolvable g it)) (pendingAddParents g) /\
  (forall c, parents_of (retryAddParents g) c
             = parents_of g c ++ resolved_for (sites g) c (pendingAddParents g)) /\
  emitted (retryAddParents g)
    = emitted g ++ resolved_signals (sites g) (pendingAddParents g) /\
  Forall (fun it => resolvable (retryAddParents g) it = false)
         (pendingAddParents (retryAddParents g)) /\
  retryAddParents (retryAddParents g) = retryAddParents g.
Proof.
  unfold retryAddParents.
  destruct (retry_loop_spec (pendingAddParents g) g) as (Hs & Hp & Hpar & He).
  assert (Hnone : Forall (fun it => resolvable (retry_loop (pendingAddParents g) g) it
                                    = false)
                         (pendingAddParents (retry_loop (pendingAddParents g) g))).
  { rewrite Hp. apply Forall_forall. intros it Hin.
    apply list_elem_of_In, List.filter_In in Hin. destruct Hin as [_ Hin].
    unfold resolvable in *. rewrite Hs.
    destruct (find (sites g) (site it) (program it) (function it));
      [discriminate Hin | reflexivity]. }
  split; [exact Hs |]. split; [exact Hp |]. split; [exact Hpar |].
  split; [exact He |]. split; [exact Hnone |].
  rewrite retry_loop_none by exact Hnone.
  destruct (retry_loop (pendingAddParents g) g). reflexivity.
Qed.

Lemma erase_child_filter c pending :
  erase_child c pending = List.filter (fun it => negb (Nat.eqb (child it) c)) pending.
Proof.
  induction pending as [| it rest IH]; simpl; [reflexivity |].
  destruct (Nat.eqb (child it) c); simpl; rewrite IH; reflexivity.
Qed.

Lemma resolved_for_erased sites_ c pending :
  resolved_for sites_ c (erase_child c pending) = [].
Proof.
  induction pending as [| it rest IH]; simpl; [reflexivity |].
  destruct (Nat.eqb (child it) c) eqn:Ec; simpl; [exact IH |].
  rewrite Ec. destruct (find sites_ (site it) (program it) (function it)); exact IH.
Qed.

(** X17.  [GraphModel::removeParents] leaves the child without parents, the
    other functions with theirs, and the pending list without any entry for
    the child, the other entries being kept in their order; one
    [relationRemoved] is emitted for each parent the child had.  As nothing
    is waited for on behalf of the child any more, a later
    [retryAddParents] gives it no parent. *)
Theorem removeParents_forgets_child c g :
  parents_of (removeParents c g) c = [] /\
  (forall c', c' <> c -> parents_of (removeParents c g) c' = parents_of g c') /\
  pendingAddParents (removeParents c g)
    = List.filter (fun it => negb (Nat.eqb (child it) c)) (pendingAddParents g) /\
  emitted (removeParents c g)
    = emitted g ++ List.map (fun parent => relationRemoved parent c) (parents_of g c) /\
  parents_of (retryAddParents (removeParents c g)) c = [].
Proof.
  assert (H1 : parents_of (removeParents c g) c = []).
  { unfold parents_of, removeParents. simpl. rewrite lookup_insert_eq. reflexivity. }
  split; [exact H1 |]. split; [| split; [| split]].
  - intros c' Hne. unfold parents_of, removeParents. simpl.
    rewrite lookup_insert_ne by congruence. reflexivity.
  - apply erase_child_filter.
  - reflexivity.
  - unfold retryAddParents.
    destruct (retry_loop_spec (pendingAddParents (removeParents c g))
                              (removeParents c g)) as (_ & _ & Hpar & _).
    rewrite Hpar, H1. simpl. apply resolved_for_erased.
Qed.

(** X18.  A parent that is waited for is connected as it would have been at
    once: when nothing pending can be resolved and [find] locates the
    parent, delaying the connection with [delayAddFunctionParent] and then
    calling [retryAddParents] gives the model that [addFunctionParent]
    gives. *)
Theorem delayed_parent_is_added c s p f par g :
  Forall (fun it => resolvable g it = false) (pendingAddParents g) ->
  find (sites g) s p f = Some par ->
  retryAddParents (delayAddFunctionParent c s p f g)
  = addFunctionParent (addr par) c g.
Proof.
  intros Hnone Hf. unfold retryAddParents, delayAddFunctionParent. simpl.
  rewrite (retry_loop_app (pendingAddParents g) _ (mk_pending c s p f) par).
  - reflexivity.
  - exact Hnone.
  - exact Hf.
Qed.

Lemma delayed_parent_is_added_witness :
  (Forall (fun it => resolvable (retryAddParents waiting_model) it = false)
          (pendingAddParents (retryAddParents waiting_model)) /\
   find (sites (retryAddParents waiting_model)) "s" "p" "g"
     = Some (mk_item 101 "g" 1 (30, 30) tt)) /\
  retryAddParents (delayAddFunctionParent 100 "s" "p" "g" (retryAddParents waiting_model))
  = addFunctionParent (addr (mk_item 101 "g" 1 (30, 30) tt : FunctionItem)) 100
                      (retryAddParents waiting_model).
Proof.
  assert (H1 : Forall (fun it => resolvable (retryAddParents waiting_model) it = false)
                      (pendingAddParents (retryAddParents waiting_model))).
  { vm_compute. apply List.Forall_cons; [reflexivity | apply List.Forall_nil]. }
  assert (H2 : find (sites (retryAddParents waiting_model)) "s" "p" "g"
               = Some (mk_item 101 "g" 1 (30, 30) tt)) by reflexivity.
  split; [split; assumption |].
  exact (delayed_parent_is_added 100 "s" "p" "g" _ (retryAddParents waiting_model)
           H1 H2).
Defined.

(** *** The factor loop *)

Lemma factor_loop_true kvs functionKey name_ todo : forall i,
  factor_loop kvs functionKey name_ todo i = true <->
  exists k, (k < todo)%nat /\
    factor kvs functionKey (i + k) = Some (conf_String name_) /\
    forall j, (j < k)%nat -> is_Some (factor kvs functionKey (i + j)).
Proof.
  unfold factor. induction todo as [| todo IH]; intros i; simpl.
  - split; [discriminate |]. intros (k & Hk & _). lia.
  - destruct (kvs !! functionKey ("/factors/" ++ to_string i)%string)
      as [[s0 |] |] eqn:E.
    + destruct (String.eqb_spec s0 name_) as [-> | Hne].
      * split; [intros _ | reflexivity]. exists 0%nat.
        split; [lia |]. split; [rewrite Nat.add_0_r; exact E | intros j Hj; lia].
      * rewrite IH. split.
        -- intros (k & Hk & Hv & Hb). exists (S k). split; [lia |].
           split; [rewrite Nat.add_succ_r; exact Hv |].
           intros [| j] Hj; [rewrite Nat.add_0_r, E; eexists; reflexivity |].
           rewrite Nat.add_succ_r. apply Hb. lia.
        -- intros (k & Hk & Hv & Hb). destruct k as [| k].
           ++ rewrite Nat.add_0_r, E in Hv. congruence.
           ++ exists k. split; [lia |].
              split; [rewrite Nat.add_succ_r in Hv; exact Hv |].
              intros j Hj. specialize (Hb (S j) ltac:(lia)).
              rewrite Nat.add_succ_r in Hb. exact Hb.
    + rewrite IH. split.
      * intros (k & Hk & Hv & Hb). exists (S k). split; [lia |].
        split; [rewrite Nat.add_succ_r; exact Hv |].
        intros [| j] Hj; [rewrite Nat.add_0_r, E; eexists; reflexivity |].
        rewrite Nat.add_succ_r. apply Hb. lia.
      * intros (k & Hk & Hv & Hb). destruct k as [| k].
        -- rewrite Nat.add_0_r, E in Hv. discriminate Hv.
        -- exists k. split; [lia |].
           split; [rewrite Nat.add_succ_r in Hv; exact Hv |].
           intros j Hj. specialize (Hb (S j) ltac:(lia)).
           rewrite Nat.add_succ_r in Hb. exact Hb.
    + split; [discriminate |]. intros (k & Hk & Hv & Hb). destruct k as [| k].
      * rewrite Nat.add_0_r, E in Hv. discriminate Hv.
      * specialize (Hb 0%nat ltac:(lia)). rewrite Nat.add_0_r, E in Hb.
        destruct Hb as [? Hb]. discriminate Hb.
Qed.

(** X19.  The column of a chart is marked as a factor exactly when one of
    the factors number 0 to 999 is a string equal to its name and every
    factor of a smaller number has a value: the numbering is followed as
    long as it has no gap, a value that is not a string is passed over, and
    the factors from number 1000 on are never looked at. *)
Theorem isFactor_first_thousand kvs functionKey name_ :
  isFactor kvs functionKey name_ = true <->
  exists i, (i < 1000)%nat /\
    factor kvs functionKey i = Some (conf_String name_) /\
    forall j, (j < i)%nat -> is_Some (factor kvs functionKey j).
Proof.
  unfold isFactor. rewrite factor_loop_true. reflexivity.
Qed.

End GraphFacts.
